(** * Pajek partition files (.clu): parser and generator

    A shallow embedding of the two functions of [example_read_clu.ipynb],
    [parse_pajek_communities] and [generate_pajek_communities], with the
    Python built-ins they call ([str.lower], [str.startswith], [str.split],
    [str.rstrip], [int], [str], [min], [list.remove], insertion-ordered
    dictionaries), followed by the properties of the two functions.

    Conventions of the embedding.
    - A Python [str] is a [string]; its characters are the code points
      U+0000 .. U+00FF.
    - A Python [int] is a [Z].
    - A raised exception is a value of [PyExn]; a function that can raise
      returns a [result].
    - An iterator over lines is the list of the lines not yet consumed. *)

From Stdlib Require Import ZArith Lia Bool Ascii String DecimalString DecimalZ DecimalPos.
From stdpp Require Import base list strings sorting.
From Equations Require Import Equations.

Local Open Scope string_scope.
Local Open Scope list_scope.
Local Open Scope Z_scope.

(** ** Python strings *)

Module Str.

Definition code (c : ascii) : nat := nat_of_ascii c.

(** [str.isspace] on one character: the separators of [str.split()]. *)
Definition isspace (c : ascii) : bool :=
  let n := code c in
  ((9 <=? n) && (n <=? 13) || (28 <=? n) && (n <=? 32)
   || (n =? 133) || (n =? 160))%nat.

(** The blanks [int] skips around a literal: C's [isspace] on ASCII
    text, and the two blanks above U+007F. *)
Definition int_isspace (c : ascii) : bool :=
  let n := code c in
  ((9 <=? n) && (n <=? 13) || (n =? 32) || (n =? 133) || (n =? 160))%nat.

Definition lower_char (c : ascii) : ascii :=
  let n := code c in
  if ((65 <=? n) && (n <=? 90)
      || (192 <=? n) && (n <=? 222) && negb (n =? 215))%nat
  then ascii_of_nat (n + 32) else c.

(** [s.lower()] *)
Fixpoint lower (s : string) : string :=
  match s with
  | EmptyString => EmptyString
  | String c s' => String (lower_char c) (lower s')
  end.

(** [s.startswith(p)] *)
Definition startswith (s p : string) : bool := String.prefix p s.

(** [s.split()]: the maximal runs of characters that are not blank.
    [tok] is the run being read. *)
Fixpoint split_from (tok : string) (s : string) : list string :=
  match s with
  | EmptyString => if String.eqb tok "" then [] else [tok]
  | String c s' =>
      if isspace c
      then (if String.eqb tok "" then split_from "" s'
            else tok :: split_from "" s')
      else split_from (tok +:+ String c "") s'
  end.

Definition split (s : string) : list string := split_from "" s.

(** [s.split(sep)] for a one-character separator: never empty. *)
Fixpoint split_on (sep : ascii) (s : string) : list string :=
  match s with
  | EmptyString => [""]
  | String c s' =>
      if Ascii.eqb c sep then "" :: split_on sep s'
      else match split_on sep s' with
           | t :: ts => String c t :: ts
           | [] => [String c ""]
           end
  end.

(** [s.lstrip(chars)] and [s.rstrip(chars)], the set [chars] given by
    its membership test. *)
Fixpoint lstrip (p : ascii -> bool) (s : string) : string :=
  match s with
  | EmptyString => EmptyString
  | String c s' => if p c then lstrip p s' else s
  end.

Fixpoint rstrip (p : ascii -> bool) (s : string) : string :=
  match s with
  | EmptyString => EmptyString
  | String c s' =>
      match rstrip p s' with
      | EmptyString => if p c then EmptyString else String c EmptyString
      | r => String c r
      end
  end.

Definition is_newline (c : ascii) : bool := Ascii.eqb c "010".
Definition is_underscore (c : ascii) : bool := Ascii.eqb c "_".

(** The digits of a decimal literal, where one underscore may stand
    between two digits; [prev] tells that the previous character was an
    underscore. *)
Fixpoint digits (prev : bool) (s : string) : option Decimal.uint :=
  match s with
  | EmptyString => if prev then None else Some Decimal.Nil
  | String c s' =>
      if is_underscore c
      then (if prev then None else digits true s')
      else uint_of_char c (digits false s')
  end.

(** An unsigned literal: at least one digit, no underscore in front. *)
Definition unsigned_literal (s : string) : option Z :=
  match s with
  | EmptyString => None
  | String c _ =>
      if is_underscore c then None
      else option_map Z.of_uint (digits false s)
  end.

(** [int(s)] in base 10; [None] stands for [ValueError]. The bound that
    recent interpreters put on the number of digits is left out. *)
Definition int (s : string) : option Z :=
  match rstrip int_isspace (lstrip int_isspace s) with
  | EmptyString => None
  | String c r as literal =>
      if Ascii.eqb c "+" then unsigned_literal r
      else if Ascii.eqb c "-" then option_map Z.opp (unsigned_literal r)
      else unsigned_literal literal
  end.

(** [str(z)], which is also what [f"{z}"] formats. *)
Definition of_int (z : Z) : string := NilZero.string_of_int (Z.to_int z).

End Str.

(** ** Exceptions and results *)

(** The statement of [parse_pajek_communities] that raised a
    [ValueError]. *)
Inductive Site :=
| UnpackHeader   (* l, nnodes = l.split() *)
| IntCount       (* int(nnodes) *)
| IntLabel.      (* int(l) *)

Inductive PyExn :=
| ValueError (site : Site)
| StopIteration          (* next(lines) on an exhausted iterator *)
| UnboundLocalError      (* communities read before any assignment *)
| MinOfEmpty             (* ValueError of min([]) in the generator *)
| NoOwner                (* next(...) of an exhausted generator expression *)
| NotInList               (* ValueError of list.remove *)
| IndexError.             (* communities_list[community] out of range *)

Inductive result (A : Type) :=
| Ok (a : A)
| Raise (e : PyExn).
Arguments Ok {A} a.
Arguments Raise {A} e.

(** The error kinds the specification names, as the exceptions the code
    raises for them. *)
Inductive ParseError := MalformedHeader | PrematureEOF | InvalidLabel.

Definition error_kind (e : PyExn) : option ParseError :=
  match e with
  | ValueError UnpackHeader | ValueError IntCount => Some MalformedHeader
  | ValueError IntLabel => Some InvalidLabel
  | StopIteration => Some PrematureEOF
  | _ => None
  end.

(** ** The data model *)

Definition Community := list Z.
Definition Partition := list Community.

(** A Python dictionary from labels to lists of vertices, in insertion
    order. *)
Definition dict := list (Z * list Z).

(** [communities.setdefault(community, []).append(vertex)] *)
Fixpoint setdefault_append (community vertex : Z) (communities : dict) : dict :=
  match communities with
  | [] => [(community, [vertex])]
  | (k, vs) :: d =>
      if Z.eqb k community then (k, vs ++ [vertex]) :: d
      else (k, vs) :: setdefault_append community vertex d
  end.

(** [[v for k, v in dict(communities).items()]] *)
Definition values (communities : dict) : Partition := map snd communities.

(** ** The parser *)

(** [l.lower().startswith("*vertices")] *)
Definition is_header (l : string) : bool :=
  Str.startswith (Str.lower l) "*vertices".

(** The body of [for vertex in range(int(nnodes))], for the [n] values of
    [vertex] still to come; it returns the dictionary and the lines left
    in the iterator. *)
Fixpoint read_assignments (n : nat) (vertex : Z) (lines : list string)
    (communities : dict) : result (dict * list string) :=
  match n with
  | O => Ok (communities, lines)
  | S n' =>
      match lines with
      | [] => Raise StopIteration
      | l :: lines' =>
          match Str.int l with
          | None => Raise (ValueError IntLabel)
          | Some community =>
              read_assignments n' (vertex + 1) lines'
                (setdefault_append community vertex communities)
          end
      end
  end.

(** Reading assignments only consumes lines; the loop below terminates
    for this reason. *)
Lemma read_assignments_shorter n : forall vertex lines communities d rest,
  read_assignments n vertex lines communities = Ok (d, rest) ->
  (List.length rest <= List.length lines)%nat.
Proof.
  induction n as [|n IH]; intros vertex lines communities d rest; simpl.
  - intros [= _ <-]. lia.
  - destruct lines as [|l lines']; [discriminate|].
    destruct (Str.int l); [|discriminate].
    intros H%IH. simpl. lia.
Qed.

(** The [return] statement; [communities] is [None] while the local
    variable is unbound. *)
Definition finish (communities : option dict) : result Partition :=
  match communities with
  | None => Raise UnboundLocalError
  | Some d => Ok (values d)
  end.

(** The [while lines:] loop. [range(int(nnodes))] is empty when the count
    is negative, which is [Z.to_nat]. *)
Equations? parse_loop (communities : option dict) (lines : list string)
  : result Partition by wf (List.length lines) lt :=
  parse_loop communities [] := finish communities;
  parse_loop communities (l :: rest) with is_header l := {
    | false := finish communities
    | true with Str.split l := {
      | [_; nnodes] with Str.int nnodes := {
        | None := Raise (ValueError IntCount)
        | Some n with Logic.inspect (read_assignments (Z.to_nat n) 0 rest []) := {
          | exist _ (Ok (d, rest')) _ := parse_loop (Some d) rest'
          | exist _ (Raise e) _ := Raise e } }
      | _ := Raise (ValueError UnpackHeader) } }.
Proof.
  match goal with H : read_assignments _ _ _ _ = _ |- _ =>
    apply read_assignments_shorter in H end.
  simpl. lia.
Qed.

(** The argument of [parse_pajek_communities]: a string, or an iterable
    of lines. *)
Inductive LinesArg :=
| Text (s : string)
| Lines (ls : list string).

(** The first two statements of the function: the iterator the loop
    reads from. *)
Definition input_lines (lines : LinesArg) : list string :=
  let lines := match lines with
               | Text s => Str.split_on "010" s
               | Lines ls => ls
               end in
  map (Str.rstrip Str.is_newline) lines.

Definition parse_pajek_communities (lines : LinesArg) : result Partition :=
  parse_loop None (input_lines lines).

(** [read_pajek_communities]: [path] is the opened file, given by its
    decoded lines, each with its line terminator. *)
Definition read_pajek_communities (path : list string) : result Partition :=
  parse_pajek_communities (Lines path).

(** ** The generator *)

(** [min(xs)]; [None] stands for the [ValueError] of an empty argument. *)
Definition py_min (xs : list Z) : option Z :=
  match xs with
  | [] => None
  | x :: xs' => Some (foldl Z.min x xs')
  end.

(** [[min(item) for item in communities_list if item]] *)
Definition minima (communities_list : list (list Z)) : list Z :=
  omap py_min (filter (λ item, item ≠ []) communities_list).

(** [v.remove(vertex)]: the first occurrence goes; [None] stands for the
    [ValueError] of a missing element. *)
Fixpoint list_remove (vertex : Z) (v : list Z) : option (list Z) :=
  match v with
  | [] => None
  | y :: v' =>
      if decide (vertex = y) then Some v'
      else (y ::.) <$> list_remove vertex v'
  end.

(** The two assignments [vertex = min(...)] and [community = next(...)]. *)
Definition find_owner (communities_list : list (list Z)) : result (Z * nat) :=
  match py_min (minima communities_list) with
  | None => Raise MinOfEmpty
  | Some vertex =>
      match list_find (λ v, vertex ∈ v) communities_list with
      | None => Raise NoOwner
      | Some (community, _) => Ok (vertex, community)
      end
  end.

(** [communities_list[community].remove(vertex)] *)
Definition remove_vertex (community : nat) (vertex : Z)
    (communities_list : list (list Z)) : result (list (list Z)) :=
  match communities_list !! community with
  | None => Raise IndexError
  | Some v =>
      match list_remove vertex v with
      | None => Raise NotInList
      | Some v' => Ok (<[community := v']> communities_list)
      end
  end.

(** The body of [for n in range(0, nnodes)], for the [n] rounds still to
    come: the lines yielded, and the exception that ended the generator,
    if any. The line of a round is yielded before its removal. *)
Fixpoint generate_loop (n : nat) (communities_list : list (list Z))
  : list string * option PyExn :=
  match n with
  | O => ([], None)
  | S n' =>
      match find_owner communities_list with
      | Raise e => ([], Some e)
      | Ok (vertex, community) =>
          let line := Str.of_int (Z.of_nat community + 1) in
          match remove_vertex community vertex communities_list with
          | Raise e => ([line], Some e)
          | Ok communities_list' =>
              let '(lines, e) := generate_loop n' communities_list' in
              (line :: lines, e)
          end
      end
  end.

(** The generator works on [communities_list], its own copy of the
    argument; values are immutable here, so the copy is the argument. *)
Definition generate_pajek_communities (communities : Partition)
  : list string * option PyExn :=
  let communities_list := communities in
  let nnodes := sum_list (length <$> communities) in
  let '(lines, e) := generate_loop nnodes communities_list in
  (("*Vertices " +:+ Str.of_int (Z.of_nat nnodes)) :: lines, e).

(** [write_pajek_communities]: the chunks handed to [path.write], each a
    generated line and its CR LF. *)
Definition write_pajek_communities (communities : Partition)
  : list string * option PyExn :=
  let '(lines, e) := generate_pajek_communities communities in
  ((λ line, line +:+ String "013" (String "010" "")) <$> lines, e).

(** ** Files *)

(** Iterating over a file opened in binary mode: its lines, each with
    the line feed that ends it; [cur] is the line being read. *)
Fixpoint file_lines_from (cur : string) (content : string) : list string :=
  match content with
  | EmptyString => if String.eqb cur "" then [] else [cur]
  | String c content' =>
      if Str.is_newline c
      then (cur +:+ String c "") :: file_lines_from "" content'
      else file_lines_from (cur +:+ String c "") content'
  end.

Definition file_lines (content : string) : list string :=
  file_lines_from "" content.

(** [(line.decode(encoding) for line in path)], consumed to its end;
    [None] stands for the [UnicodeDecodeError] of a line. *)
Fixpoint decode_lines (decode : string → option string)
    (lines : list string) : option (list string) :=
  match lines with
  | [] => Some []
  | line :: lines' =>
      match decode line with
      | None => None
      | Some s =>
          match decode_lines decode lines' with
          | None => None
          | Some ss => Some (s :: ss)
          end
      end
  end.

(** [read_pajek_communities] on a file given by its bytes. [decode] is
    [bytes.decode(encoding)], and [None] its [UnicodeDecodeError]; every
    line is decoded before the first one is parsed. *)
Definition read_pajek_file (decode : string → option string)
    (content : string) : option (result Partition) :=
  match decode_lines decode (file_lines content) with
  | None => None
  | Some lines => Some (read_pajek_communities lines)
  end.

(** How [write_pajek_communities] ends. *)
Inductive WriteOutcome :=
| Written
| GeneratorRaised (e : PyExn)
| UnicodeEncodeError.

(** The bytes of the chunks written one after the other, up to the first
    chunk that [encode] rejects. *)
Fixpoint write_chunks (encode : string → option string)
    (chunks : list string) : string * bool :=
  match chunks with
  | [] => ("", true)
  | chunk :: chunks' =>
      match encode chunk with
      | None => ("", false)
      | Some bytes =>
          let '(content, ok) := write_chunks encode chunks' in
          (bytes +:+ content, ok)
      end
  end.

(** [write_pajek_communities] on a file that was empty: the bytes it
    holds in the end. [encode] is [str.encode(encoding)]. *)
Definition write_pajek_file (encode : string → option string)
    (communities : Partition) : string * WriteOutcome :=
  let '(chunks, e) := write_pajek_communities communities in
  let '(content, ok) := write_chunks encode chunks in
  (content,
   if ok then match e with None => Written | Some e => GeneratorRaised e end
   else UnicodeEncodeError).

(** * Vocabulary of the properties *)

(** A line that the loop takes as a header announcing [N] vertices. *)
Definition declares (l : string) (N : Z) : Prop :=
  is_header l = true ∧
  ∃ t nnodes, Str.split l = [t; nnodes] ∧ Str.int nnodes = Some N.

(** The dictionary after the labels [labels] have been given to the
    vertices [vertex], [vertex + 1], ... *)
Fixpoint assign (vertex : Z) (labels : list Z) (communities : dict) : dict :=
  match labels with
  | [] => communities
  | community :: labels' =>
      assign (vertex + 1) labels'
        (setdefault_append community vertex communities)
  end.

(** [labels] are the integers that [int] reads on the lines [body]. *)
Definition labelled (body : list string) (labels : list Z) : Prop :=
  Forall2 (λ b k, Str.int b = Some k) body labels.

(** The distinct labels, each at the place of its first occurrence. *)
Definition first_seen (labels : list Z) : list Z :=
  reverse (remove_dups (reverse labels)).

(** The positions, counted from [i], at which [labels] holds [k]. *)
Fixpoint positions_from (i k : Z) (labels : list Z) : list Z :=
  match labels with
  | [] => []
  | x :: labels' =>
      if decide (x = k) then i :: positions_from (i + 1) k labels'
      else positions_from (i + 1) k labels'
  end.

(** The positions, counted from [0]: the vertices labelled [k]. *)
Definition positions (k : Z) (labels : list Z) : list Z :=
  positions_from 0 k labels.

(** The Partition the specification describes for a body of labels: one
    Community per distinct label, in first-appearance order, holding the
    positions of the label. *)
Definition grouped (labels : list Z) : Partition :=
  (λ k, positions k labels) <$> first_seen labels.

(** The same with the labels kept: the dictionary of the parser. *)
Definition dict_of (labels : list Z) : dict :=
  (λ k, (k, positions k labels)) <$> first_seen labels.

(** One round of the generator's loop on the working lists, without the
    line it yields. *)
Definition round (cl : list (list Z)) : result (list (list Z)) :=
  match find_owner cl with
  | Ok (vertex, community) => remove_vertex community vertex cl
  | Raise e => Raise e
  end.

(** The working lists after [k] rounds. *)
Fixpoint working (k : nat) (cl : list (list Z)) : result (list (list Z)) :=
  match k with
  | O => Ok cl
  | S k' =>
      match round cl with
      | Ok cl' => working k' cl'
      | Raise e => Raise e
      end
  end.

(** [nnodes], the number of vertices the generator counts. *)
Definition nnodes (communities : Partition) : nat :=
  sum_list (length <$> communities).

(** Invariant I1: the vertices of all Communities together are
    [0, ..., N-1], each once. *)
Definition I1 (P : Partition) : Prop :=
  mjoin P ≡ₚ seqZ 0 (Z.of_nat (nnodes P)).

(** The line the generator yields for the Community at position [j]. *)
Definition line_of (j : nat) : string := Str.of_int (Z.of_nat j + 1).

(** Every character of [s] passes the test [p]. *)
Fixpoint all_chars (p : ascii → bool) (s : string) : bool :=
  match s with
  | EmptyString => true
  | String c s' => p c && all_chars p s'
  end.

(** The characters [0] to [9]. *)
Definition is_digit (c : ascii) : bool :=
  ((48 <=? Str.code c) && (Str.code c <=? 57))%nat.

(** [m'] is [m] followed by characters that [int] skips. *)
Definition blank_suffix (m' m : string) : Prop :=
  ∃ ws, m' = m +:+ ws ∧ all_chars Str.int_isspace ws = true.

(** The line endings: carriage return, and carriage return with line
    feed. *)
Definition CR : string := String "013" "".
Definition CRLF : string := String "013" (String "010" "").

(** The members of [c] below [k], in increasing order. *)
Definition members (c : Community) (k : nat) : list Z :=
  filter (λ i, i ∈ c) (seqZ 0 (Z.of_nat k)).

(** [c1] is met before [c2] when the lines are read: its least vertex is
    the smaller one. *)
Definition before (c1 c2 : Community) : Prop :=
  match py_min c1, py_min c2 with
  | Some m1, Some m2 => m1 < m2
  | _, _ => False
  end.

(** The dictionary of the parser once the lines of the vertices below [k]
    are read, the Community at position [j] of [P] having the label
    [b + j]. *)
Fixpoint entries (b : Z) (k : nat) (P : Partition) : dict :=
  match P with
  | [] => []
  | c :: P' =>
      (if decide (members c k = []) then [] else [(b, members c k)])
      ++ entries (b + 1) k P'
  end.

(** The test of the specification: the first token of the line, in lower
    case, is [*vertices]. *)
Definition spec_is_header (l : string) : bool :=
  match Str.split l with
  | t :: _ => String.eqb (Str.lower t) "*vertices"
  | [] => false
  end.

(** Every vertex [v] renamed [f v]. *)
Definition renumber (f : Z → Z) (P : list (list Z)) : list (list Z) :=
  (λ c : list Z, f <$> c) <$> P.

(** The shape of every Partition the parser returns: I1 holds, no
    Community is empty, the Communities stand in the order of their least
    vertices, and the members of each are in increasing order. *)
Definition canonical (Q : Partition) : Prop :=
  I1 Q
  ∧ Forall (λ c, c ≠ []) Q
  ∧ StronglySorted before Q
  ∧ Forall (StronglySorted Z.lt) Q.

(** The same for the dictionary of the loop, [vertex] being the next
    vertex to come. *)
Definition dict_inv (vertex : Z) (d : dict) : Prop :=
  0 <= vertex
  ∧ mjoin (values d) ≡ₚ seqZ 0 vertex
  ∧ Forall (λ c, c ≠ []) (values d)
  ∧ StronglySorted before (values d)
  ∧ Forall (StronglySorted Z.lt) (values d).

(** The position of [x] in [fs], counted from 0. *)
Fixpoint index_of (x : Z) (fs : list Z) : nat :=
  match fs with
  | [] => 0
  | y :: fs' => if decide (x = y) then 0 else S (index_of x fs')
  end.

(** The characters below U+0080. *)
Definition is_ascii (c : ascii) : bool := (Str.code c <? 128)%nat.

(** A character of a generated line: below U+0080, and no line feed. *)
Definition is_plain (c : ascii) : bool := is_ascii c && negb (Str.is_newline c).

(** [chr(10).join(lines)] *)
Fixpoint join_lines (lines : list string) : string :=
  match lines with
  | [] => ""
  | [line] => line
  | line :: lines' => line +:+ String "010" (join_lines lines')
  end.

(** * Properties *)

(** ** Examples of the specification *)

Example int_examples :
  map Str.int ["1"; " 12 "; "007"; "+5"; "-3"; "1_000"; "4" +:+ String "013" ""]
  = [Some 1; Some 12; Some 7; Some 5; Some (-3); Some 1000; Some 4]
  /\ map Str.int [""; "+"; "abc"; "_1"; "1_"; "1__0"; "- 5"; "1 2"; "1" +:+ String "028" ""]
     = [None; None; None; None; None; None; None; None; None].
Proof. split; reflexivity. Qed.

Example split_examples :
  Str.split " a  b " = ["a"; "b"] /\ Str.split "  " = []
  /\ Str.split ("*Vertices 4" +:+ String "013" "") = ["*Vertices"; "4"]
  /\ Str.split_on "010" "" = [""]
  /\ Str.split_on "010" ("a" +:+ String "010" (String "010" "b")) = ["a"; ""; "b"].
Proof. repeat split; reflexivity. Qed.

Example of_int_examples :
  map Str.of_int [0; 7; 10; 4300; -5] = ["0"; "7"; "10"; "4300"; "-5"].
Proof. reflexivity. Qed.

Example parse_ex1 :
  parse_pajek_communities (Lines ["*Vertices 4"; "1"; "2"; "1"; "2"])
  = Ok [[0; 2]; [1; 3]].
Proof. reflexivity. Qed.

Example parse_first_appearance :
  parse_pajek_communities (Text ("*Vertices 4" +:+ String "010" "3" +:+
    String "010" "1" +:+ String "010" "3" +:+ String "010" "1"))
  = Ok [[0; 2]; [1; 3]].
Proof. reflexivity. Qed.

Example parse_errors :
  parse_pajek_communities (Lines ["*Vertices"])
  = Raise (ValueError UnpackHeader)
  /\ parse_pajek_communities (Lines ["*Vertices four"])
     = Raise (ValueError IntCount)
  /\ parse_pajek_communities (Lines ["*Vertices 5"; "1"; "2"; "3"])
     = Raise StopIteration
  /\ parse_pajek_communities (Lines ["*Vertices 2"; "1"; "abc"])
     = Raise (ValueError IntLabel).
Proof. repeat split; reflexivity. Qed.

Example generate_ex1 :
  generate_pajek_communities [[0; 2]; [1; 3]]
  = (["*Vertices 4"; "1"; "2"; "1"; "2"], None).
Proof. reflexivity. Qed.

Example generate_storage_order :
  generate_pajek_communities [[3; 0]; [1; 2]]
  = (["*Vertices 4"; "1"; "2"; "2"; "1"], None).
Proof. reflexivity. Qed.

(** ** The loop of the parser, unfolded *)

Lemma parse_loop_nil communities : parse_loop communities [] = finish communities.
Proof. by simp parse_loop. Qed.

Lemma parse_loop_cons communities l rest :
  parse_loop communities (l :: rest) =
  if is_header l then
    match Str.split l with
    | [_; nnodes] =>
        match Str.int nnodes with
        | None => Raise (ValueError IntCount)
        | Some n =>
            match read_assignments (Z.to_nat n) 0 rest [] with
            | Ok (d, rest') => parse_loop (Some d) rest'
            | Raise e => Raise e
            end
        end
    | _ => Raise (ValueError UnpackHeader)
    end
  else finish communities.
Proof.
  simp parse_loop. destruct (is_header l); simpl; [|done].
  destruct (Str.split l) as [|t [|nnodes [|]]]; simpl; try done.
  destruct (Str.int nnodes) as [n|]; simpl; [|done].
  by destruct (read_assignments (Z.to_nat n) 0 rest []) as [[d rest']|e].
Qed.

Lemma parse_loop_section communities l N rest :
  declares l N →
  parse_loop communities (l :: rest) =
  match read_assignments (Z.to_nat N) 0 rest [] with
  | Ok (d, rest') => parse_loop (Some d) rest'
  | Raise e => Raise e
  end.
Proof.
  intros [Hh (t & nnodes & Hs & Hn)].
  by rewrite parse_loop_cons, Hh, Hs, Hn.
Qed.

Lemma parse_loop_no_header communities l rest :
  is_header l = false →
  parse_loop communities (l :: rest) = finish communities.
Proof. intros Hh. by rewrite parse_loop_cons, Hh. Qed.

(** ** Input without a header *)

(** C3: on the empty input, given as no lines or as the empty string, the
    function does not return the empty Partition: it leaves by
    [UnboundLocalError], [communities] never having been assigned. *)
Theorem parse_empty_input_raises :
  parse_pajek_communities (Lines []) = Raise UnboundLocalError
  ∧ parse_pajek_communities (Text "") = Raise UnboundLocalError.
Proof. split; reflexivity. Qed.

(** The same for every input whose first line is not a header. *)
Lemma parse_no_header_raises lines :
  match input_lines lines with
  | [] => True
  | l :: _ => is_header l = false
  end →
  parse_pajek_communities lines = Raise UnboundLocalError.
Proof.
  unfold parse_pajek_communities. destruct (input_lines lines) as [|l rest].
  - by rewrite parse_loop_nil.
  - intros Hh. by rewrite parse_loop_no_header.
Qed.

(** ** The header *)

(** C5, as stated, fails: the count [-3] is not a non-negative integer,
    and the function returns the empty Partition. *)
Lemma negative_count_accepted :
  ¬ ∀ lines l rest,
      input_lines lines = l :: rest →
      is_header l = true →
      (¬ ∃ t nnodes N,
           Str.split l = [t; nnodes] ∧ Str.int nnodes = Some N ∧ 0 <= N) →
      ∃ e, parse_pajek_communities lines = Raise e
           ∧ error_kind e = Some MalformedHeader.
Proof.
  intros H.
  destruct (H (Lines ["*Vertices -3"]) "*Vertices -3" []) as (e & He & _);
    [done|done| |discriminate He].
  intros (t & nnodes & N & Hs & Hn & HN).
  vm_compute in Hs. injection Hs as <- <-.
  vm_compute in Hn. injection Hn as <-. lia.
Qed.

(** C5, amended: a first line that is a header and does not split into
    exactly two tokens, or whose second token [int] rejects, makes the
    function raise the [ValueError] of a malformed header; a negative
    count is accepted, and the section then has no body line. *)
Theorem malformed_header_raises lines l rest :
  input_lines lines = l :: rest →
  is_header l = true →
  ((¬ ∃ t nnodes N, Str.split l = [t; nnodes] ∧ Str.int nnodes = Some N) →
   ∃ e, parse_pajek_communities lines = Raise e
        ∧ error_kind e = Some MalformedHeader)
  ∧ (∀ N, declares l N → N < 0 →
     parse_pajek_communities lines = parse_loop (Some []) rest).
Proof.
  intros Hl Hh. unfold parse_pajek_communities. rewrite Hl. split.
  - intros Hno. rewrite parse_loop_cons, Hh.
    destruct (Str.split l) as [|t [|nnodes [|]]]; try by eexists.
    destruct (Str.int nnodes) as [N|] eqn:HN; [|by eexists].
    destruct Hno. by exists t, nnodes, N.
  - intros N HN Hneg. rewrite (parse_loop_section _ _ N) by done.
    by replace (Z.to_nat N) with 0%nat by lia.
Qed.

Lemma malformed_header_raises_witness :
  ∃ e, parse_pajek_communities (Lines ["*Vertices"]) = Raise e
       ∧ error_kind e = Some MalformedHeader.
Proof.
  apply (malformed_header_raises (Lines ["*Vertices"]) "*Vertices" []);
    [reflexivity|reflexivity|].
  intros (t & nnodes & N & Hs & _). discriminate Hs.
Defined.

(** ** The body of a section *)

Lemma labelled_exists body :
  Forall (λ b, is_Some (Str.int b)) body → ∃ labels, labelled body labels.
Proof.
  induction 1 as [|b body [k Hk] _ [labels IH]].
  - exists []. constructor.
  - exists (k :: labels). by constructor.
Qed.

Lemma read_assignments_labelled body labels : labelled body labels →
  ∀ m vertex rest communities,
    read_assignments (length body + m) vertex (body ++ rest) communities
    = read_assignments m (vertex + Z.of_nat (length body)) rest
        (assign vertex labels communities).
Proof.
  induction 1 as [|b k body labels Hk _ IH]; intros m vertex rest communities.
  - simpl. by rewrite Z.add_0_r.
  - cbn [length Nat.add app read_assignments assign]. rewrite Hk, IH.
    f_equal. lia.
Qed.

Lemma read_assignments_exact body labels vertex rest communities :
  labelled body labels →
  read_assignments (length body) vertex (body ++ rest) communities
  = Ok (assign vertex labels communities, rest).
Proof.
  intros H. rewrite <- (Nat.add_0_r (length body)) at 1.
  by rewrite (read_assignments_labelled _ _ H).
Qed.

(** C8, as stated, fails: one body line where five are announced, and
    the error is the one of an invalid label, raised before the input
    runs out. *)
Lemma short_body_invalid_label_first :
  ¬ ∀ lines l N body,
      input_lines lines = l :: body →
      declares l N →
      Z.of_nat (length body) < N →
      ∃ e, parse_pajek_communities lines = Raise e
           ∧ error_kind e = Some PrematureEOF.
Proof.
  intros H.
  destruct (H (Lines ["*Vertices 5"; "abc"]) "*Vertices 5" 5 ["abc"])
    as (e & He & Hk); [done| |done|].
  - split; [done|]. by exists "*Vertices", "5".
  - vm_compute in He. injection He as <-. discriminate Hk.
Qed.

(** C8, amended: when the header announces [N] vertices and fewer than
    [N] lines follow, each of them an integer for [int], the function
    raises [StopIteration], the premature end of input, and returns no
    Partition. *)
Theorem premature_eof_raises lines l N body :
  input_lines lines = l :: body →
  declares l N →
  Forall (λ b, is_Some (Str.int b)) body →
  Z.of_nat (length body) < N →
  parse_pajek_communities lines = Raise StopIteration
  ∧ error_kind StopIteration = Some PrematureEOF.
Proof.
  intros Hl HN [labels Hb]%labelled_exists Hlt. split; [|done].
  unfold parse_pajek_communities.
  rewrite Hl, (parse_loop_section _ _ N) by done.
  replace (Z.to_nat N) with (length body + S (Z.to_nat N - S (length body)))%nat
    by lia.
  pose proof (read_assignments_labelled _ _ Hb
    (S (Z.to_nat N - S (length body))) 0 [] []) as Hr.
  rewrite app_nil_r in Hr. by rewrite Hr.
Qed.

Lemma premature_eof_raises_witness :
  parse_pajek_communities (Lines ["*Vertices 5"; "1"; "2"; "1"])
  = Raise StopIteration
  ∧ error_kind StopIteration = Some PrematureEOF.
Proof.
  apply (premature_eof_raises _ "*Vertices 5" 5 ["1"; "2"; "1"]).
  - reflexivity.
  - split; [reflexivity|]. by exists "*Vertices", "5".
  - repeat constructor; by eexists.
  - simpl. lia.
Defined.

(** C4, as stated, fails: a trailing line that is itself a header opens a
    second section, and the Partition returned is the one of that
    section. *)
Lemma trailing_header_read :
  ¬ ∀ lines lines' l N body trailing,
      input_lines lines = l :: body ++ trailing →
      input_lines lines' = l :: body →
      declares l N →
      Z.of_nat (length body) = N →
      Forall (λ b, is_Some (Str.int b)) body →
      parse_pajek_communities lines = parse_pajek_communities lines'.
Proof.
  intros H.
  specialize (H (Lines ["*Vertices 1"; "1"; "*Vertices 2"; "1"; "2"])
                (Lines ["*Vertices 1"; "1"])
                "*Vertices 1" 1 ["1"] ["*Vertices 2"; "1"; "2"]).
  discriminate H; try done.
  - split; [done|]. by exists "*Vertices", "1".
  - repeat constructor; by eexists.
Qed.

(** C4, amended: after a header announcing [N] vertices and [N] lines
    that [int] reads, trailing lines whose first one is not a header are
    ignored: the function returns what it returns without them. *)
Theorem trailing_lines_ignored lines lines' l N body trailing :
  input_lines lines = l :: body ++ trailing →
  input_lines lines' = l :: body →
  declares l N →
  Z.of_nat (length body) = N →
  Forall (λ b, is_Some (Str.int b)) body →
  match trailing with [] => True | t :: _ => is_header t = false end →
  parse_pajek_communities lines = parse_pajek_communities lines'.
Proof.
  intros Hl Hl' HN Hlen [labels Hb]%labelled_exists Ht.
  unfold parse_pajek_communities.
  rewrite Hl, Hl', !(parse_loop_section _ _ N) by done.
  replace (Z.to_nat N) with (length body) by lia.
  pose proof (read_assignments_exact _ _ 0 [] [] Hb) as Hr.
  rewrite app_nil_r in Hr.
  rewrite (read_assignments_exact _ _ _ _ _ Hb), Hr, parse_loop_nil.
  destruct trailing as [|t trailing]; [by rewrite parse_loop_nil|].
  by rewrite parse_loop_no_header.
Qed.

Lemma trailing_lines_ignored_witness :
  parse_pajek_communities (Lines ["*Vertices 2"; "7"; "7"; "*Edges"; "1 2"])
  = parse_pajek_communities (Lines ["*Vertices 2"; "7"; "7"]).
Proof.
  apply (trailing_lines_ignored _ _ "*Vertices 2" 2 ["7"; "7"] ["*Edges"; "1 2"]).
  - reflexivity.
  - reflexivity.
  - split; [reflexivity|]. by exists "*Vertices", "2".
  - reflexivity.
  - repeat constructor; by eexists.
  - reflexivity.
Defined.

(** ** Grouping by label *)

Lemma first_seen_snoc p x :
  first_seen (p ++ [x])
  = if decide (x ∈ p) then first_seen p else first_seen p ++ [x].
Proof.
  unfold first_seen. rewrite reverse_snoc. simpl.
  destruct (decide_rel elem_of x (reverse p)) as [Hin|Hin];
    rewrite elem_of_reverse in Hin.
  - by rewrite decide_True.
  - by rewrite decide_False, reverse_cons.
Qed.

Lemma elem_of_first_seen p x : x ∈ first_seen p ↔ x ∈ p.
Proof.
  unfold first_seen.
  by rewrite elem_of_reverse, elem_of_remove_dups, elem_of_reverse.
Qed.

Lemma NoDup_first_seen p : NoDup (first_seen p).
Proof.
  unfold first_seen. rewrite reverse_Permutation. apply NoDup_remove_dups.
Qed.

Lemma positions_from_snoc p : ∀ i k x,
  positions_from i k (p ++ [x])
  = positions_from i k p
    ++ (if decide (x = k) then [i + Z.of_nat (length p)] else []).
Proof.
  induction p as [|y p IH]; intros i k x; simpl.
  - rewrite Z.add_0_r. by destruct (decide (x = k)).
  - rewrite !IH. replace (i + 1 + Z.of_nat (length p))
      with (i + Z.of_nat (S (length p))) by lia.
    by destruct (decide (y = k)).
Qed.

Lemma positions_from_absent p : ∀ i k, k ∉ p → positions_from i k p = [].
Proof.
  induction p as [|y p IH]; intros i k Hk; simpl; [done|].
  rewrite not_elem_of_cons in Hk. destruct Hk as [Hne Hk].
  rewrite decide_False by done. by apply IH.
Qed.

Lemma setdefault_append_fmap (f : Z → list Z) x v fs :
  NoDup fs →
  setdefault_append x v ((λ k, (k, f k)) <$> fs)
  = if decide (x ∈ fs)
    then (λ k, (k, f k ++ if decide (x = k) then [v] else [])) <$> fs
    else ((λ k, (k, f k)) <$> fs) ++ [(x, [v])].
Proof.
  induction 1 as [|k fs Hk Hnd IH]; [done|].
  rewrite fmap_cons. cbn [setdefault_append].
  destruct (Z.eqb_spec k x) as [->|Hne].
  - rewrite decide_True by left. rewrite fmap_cons, decide_True by done.
    f_equal. apply Forall_fmap_ext_1, Forall_forall. intros k Hin.
    rewrite decide_False; [by rewrite app_nil_r|]. by intros <-.
  - rewrite IH. destruct (decide (x ∈ fs)) as [Hin|Hin].
    + rewrite decide_True by by right. rewrite fmap_cons.
      rewrite decide_False by done. by rewrite app_nil_r.
    + rewrite decide_False; [done|]. rewrite not_elem_of_cons. by split.
Qed.

Lemma dict_of_snoc p x :
  setdefault_append x (Z.of_nat (length p)) (dict_of p) = dict_of (p ++ [x]).
Proof.
  unfold dict_of. rewrite setdefault_append_fmap by apply NoDup_first_seen.
  rewrite first_seen_snoc.
  destruct (decide (x ∈ first_seen p)) as [Hin|Hin];
    rewrite elem_of_first_seen in Hin.
  - rewrite decide_True by done.
    apply Forall_fmap_ext_1, Forall_forall. intros k _.
    unfold positions. by rewrite positions_from_snoc.
  - rewrite decide_False by done. rewrite fmap_app. simpl.
    unfold positions. rewrite positions_from_snoc, decide_True by done.
    rewrite positions_from_absent by done. simpl. f_equal.
    apply Forall_fmap_ext_1, Forall_forall. intros k Hk.
    rewrite elem_of_first_seen in Hk.
    rewrite positions_from_snoc, decide_False; [by rewrite app_nil_r|].
    by intros ->.
Qed.

Lemma assign_dict_of r : ∀ p,
  assign (Z.of_nat (length p)) r (dict_of p) = dict_of (p ++ r).
Proof.
  induction r as [|x r IH]; intros p; simpl.
  - by rewrite app_nil_r.
  - rewrite dict_of_snoc.
    replace (Z.of_nat (length p) + 1) with (Z.of_nat (length (p ++ [x])))
      by (rewrite length_app; simpl; lia).
    by rewrite IH, <- app_assoc.
Qed.

Lemma values_assign labels : values (assign 0 labels []) = grouped labels.
Proof.
  change (values (assign (Z.of_nat (length (@nil Z))) labels (dict_of []))
          = grouped labels).
  rewrite assign_dict_of. simpl. unfold values, dict_of, grouped.
  by rewrite <- list_fmap_compose.
Qed.

(** C6: for a header announcing [N] vertices followed by [N] lines that
    [int] reads as the labels [labels], and then by nothing or by a line
    that is not a header, the function returns the Communities of the
    distinct labels in the order of their first occurrence, each
    Community holding, in increasing order, the positions at which its
    label occurs. *)
Theorem parse_first_appearance_order lines l N body labels trailing :
  input_lines lines = l :: body ++ trailing →
  declares l N →
  Z.of_nat (length body) = N →
  labelled body labels →
  match trailing with [] => True | t :: _ => is_header t = false end →
  parse_pajek_communities lines = Ok (grouped labels).
Proof.
  intros Hl HN Hlen Hb Ht. unfold parse_pajek_communities.
  rewrite Hl, (parse_loop_section _ _ N) by done.
  replace (Z.to_nat N) with (length body) by lia.
  rewrite (read_assignments_exact _ _ _ _ _ Hb), <- values_assign.
  destruct trailing as [|t trailing]; [by rewrite parse_loop_nil|].
  by rewrite parse_loop_no_header.
Qed.

Lemma parse_first_appearance_order_witness :
  parse_pajek_communities (Lines ["*Vertices 4"; "3"; "1"; "3"; "1"; ""])
  = Ok [[0; 2]; [1; 3]].
Proof.
  apply (parse_first_appearance_order _ "*Vertices 4" 4 ["3"; "1"; "3"; "1"]
           [3; 1; 3; 1] [""]).
  - reflexivity.
  - split; [reflexivity|]. by exists "*Vertices", "4".
  - reflexivity.
  - repeat constructor.
  - reflexivity.
Defined.

(** ** The rounds of the generator *)

Lemma py_min_elem_of xs m : py_min xs = Some m → m ∈ xs.
Proof.
  destruct xs as [|x xs]; [done|]. intros [= <-].
  revert x. induction xs as [|y xs IH]; intros x; simpl.
  { apply elem_of_cons. by left. }
  rewrite !elem_of_cons.
  pose proof (IH (Z.min x y)) as [Heq|Hin]%elem_of_cons; [|by auto].
  rewrite Heq. destruct (Z.min_spec x y) as [[_ ->]|[_ ->]]; auto.
Qed.

Lemma foldl_min_le xs : ∀ a x, x = a ∨ x ∈ xs → foldl Z.min a xs <= x.
Proof.
  induction xs as [|y xs IH]; intros a x Hx; simpl.
  - destruct Hx as [->|Hx%elem_of_nil]; [lia|done].
  - destruct Hx as [->|[->|Hx]%elem_of_cons].
    + etrans; [apply (IH _ (Z.min a y)); by left|lia].
    + etrans; [apply (IH _ (Z.min a y)); by left|lia].
    + apply IH. by right.
Qed.

Lemma py_min_le xs m x : py_min xs = Some m → x ∈ xs → m <= x.
Proof.
  destruct xs as [|x0 xs]; [done|]. intros [= <-] Hx.
  apply foldl_min_le. apply elem_of_cons in Hx. naive_solver.
Qed.

Lemma py_min_is_Some xs : xs ≠ [] → is_Some (py_min xs).
Proof. destruct xs; [done|by eexists]. Qed.

Lemma elem_of_minima m cl :
  m ∈ minima cl ↔ ∃ c, c ∈ cl ∧ py_min c = Some m.
Proof.
  unfold minima. rewrite list_elem_of_omap. split.
  - intros (c & [_ Hc]%list_elem_of_filter & Hm). by exists c.
  - intros (c & Hc & Hm). exists c. split; [|done].
    apply list_elem_of_filter. split; [|done]. by intros ->.
Qed.

Lemma list_remove_elem_of v c :
  v ∈ c → ∃ c', list_remove v c = Some c' ∧ c ≡ₚ v :: c'.
Proof.
  induction c as [|y c IH]; [by intros ?%elem_of_nil|].
  intros Hin. simpl. destruct (decide (v = y)) as [->|Hne]; [by eexists|].
  apply elem_of_cons in Hin as [?|Hin]; [done|].
  destruct (IH Hin) as (c' & -> & Hp). exists (y :: c'). split; [done|].
  rewrite Hp. apply perm_swap.
Qed.

Lemma join_insert_Permutation (cl : list (list Z)) j c c' v :
  cl !! j = Some c → c ≡ₚ v :: c' → mjoin cl ≡ₚ v :: mjoin (<[j:=c']> cl).
Proof.
  intros Hj Hp. rewrite <- (take_drop_middle cl j c Hj) at 1.
  rewrite insert_take_drop by by eapply lookup_lt_Some.
  rewrite !join_app. simpl. rewrite Hp. simpl.
  by rewrite <- Permutation_middle.
Qed.

Lemma join_nonempty (cl : list (list Z)) :
  mjoin cl ≠ [] → ∃ c, c ∈ cl ∧ c ≠ [].
Proof.
  induction cl as [|c cl IH]; [done|]. destruct c as [|x c].
  - intros (c' & Hc' & Hne)%IH. exists c'. split; [|done].
    apply elem_of_cons. by right.
  - intros _. exists (x :: c). split; [|done]. apply elem_of_cons. by left.
Qed.

(** Whenever a vertex is left, a round goes through: the list of minima
    is not empty, the vertex found is the least one left, its owner is
    the first list holding it, and the removal succeeds. *)
Lemma round_ok cl :
  mjoin cl ≠ [] →
  ∃ v j c c',
    minima cl ≠ []
    ∧ find_owner cl = Ok (v, j)
    ∧ remove_vertex j v cl = Ok (<[j:=c']> cl)
    ∧ (∀ x, x ∈ mjoin cl → v <= x)
    ∧ list_find (λ c, v ∈ c) cl = Some (j, c)
    ∧ c ≡ₚ v :: c'.
Proof.
  intros Hne.
  destruct (join_nonempty cl Hne) as (c0 & Hc0 & Hc0ne).
  destruct (py_min_is_Some c0 Hc0ne) as [m0 Hm0].
  assert (m0 ∈ minima cl) as Hin0 by (apply elem_of_minima; by exists c0).
  assert (minima cl ≠ []) as Hmne by (intros Heq; rewrite Heq in Hin0;
                                      by apply elem_of_nil in Hin0).
  destruct (py_min_is_Some _ Hmne) as [v Hv].
  pose proof (py_min_elem_of _ _ Hv) as (c1 & Hc1 & Hm1)%elem_of_minima.
  pose proof (py_min_elem_of _ _ Hm1) as Hvc1.
  destruct (list_find_elem_of (λ c, v ∈ c) cl c1 Hc1 Hvc1) as [[j c] Hfind].
  pose proof Hfind as (Hj & Hvc & _)%list_find_Some.
  destruct (list_remove_elem_of v c Hvc) as (c' & Hrm & Hp).
  exists v, j, c, c'. split_and!; try done.
  - unfold find_owner. by rewrite Hv, Hfind.
  - unfold remove_vertex. by rewrite Hj, Hrm.
  - intros x (cx & Hx & Hcx)%list_elem_of_join.
    assert (cx ≠ []) as Hcxne by (intros ->; by apply elem_of_nil in Hx).
    destruct (py_min_is_Some cx Hcxne) as [mx Hmx].
    etrans; [|by apply (py_min_le cx mx x)].
    apply (py_min_le (minima cl)); [done|].
    apply elem_of_minima. by exists cx.
Qed.

Lemma generate_loop_total n : ∀ cl,
  length (mjoin cl) = n →
  (∃ body, generate_loop n cl = (body, None) ∧ length body = n)
  ∧ ∀ k, (k < n)%nat →
      ∃ cl_k v j,
        working k cl = Ok cl_k
        ∧ (∃ c, c ∈ cl_k ∧ c ≠ [])
        ∧ minima cl_k ≠ []
        ∧ find_owner cl_k = Ok (v, j)
        ∧ ∃ cl', remove_vertex j v cl_k = Ok cl'.
Proof.
  induction n as [|n IH]; intros cl Hlen.
  - split; [by exists []|]. intros k Hk. lia.
  - assert (mjoin cl ≠ []) as Hne by (intros Heq; by rewrite Heq in Hlen).
    destruct (round_ok cl Hne) as (v & j & c & c' & Hmin & Hf & Hr & _ & Hfind & Hp).
    apply list_find_Some in Hfind as (Hj & Hvc & _).
    pose proof (join_insert_Permutation cl j c c' v Hj Hp) as Hperm.
    assert (length (mjoin (<[j:=c']> cl)) = n) as Hlen'.
    { rewrite Hperm in Hlen. simpl in Hlen. lia. }
    destruct (IH _ Hlen') as [(body & Hg & Hb) Hsteps]. split.
    + exists (Str.of_int (Z.of_nat j + 1) :: body).
      simpl. rewrite Hf, Hr, Hg. simpl. by rewrite Hb.
    + intros [|k] Hk.
      * exists cl, v, j. split_and!; try done; [|by eexists].
        exists c. split; [by eapply list_elem_of_lookup_2|].
        intros ->. by apply elem_of_nil in Hvc.
      * destruct (Hsteps k ltac:(lia)) as (cl_k & v' & j' & Hw & Hrest).
        exists cl_k, v', j'. split; [|done].
        simpl. unfold round. by rewrite Hf, Hr.
Qed.

(** ** Invariant I1 *)

Lemma length_join_nnodes (P : Partition) : length (mjoin P) = nnodes P.
Proof. apply length_join. Qed.

Lemma generate_unfold P :
  generate_pajek_communities P
  = (("*Vertices " +:+ Str.of_int (Z.of_nat (nnodes P)))
       :: (generate_loop (nnodes P) P).1,
     (generate_loop (nnodes P) P).2).
Proof.
  unfold generate_pajek_communities, nnodes.
  by destruct (generate_loop _ P).
Qed.

(** C9: for a Partition satisfying I1 with [N] vertices, each of the [N]
    rounds of the generator goes through: before round [k] some working
    list is not empty, so the list of minima is not empty, an owner is
    found and the removal succeeds; the generator ends without an
    exception after [N + 1] lines. ([generate_loop_total] is the same
    fact for any lists of integers.) *)
Theorem generate_rounds_succeed P :
  I1 P →
  (∀ k, (k < nnodes P)%nat →
     ∃ cl_k v j,
       working k P = Ok cl_k
       ∧ (∃ c, c ∈ cl_k ∧ c ≠ [])
       ∧ minima cl_k ≠ []
       ∧ find_owner cl_k = Ok (v, j)
       ∧ ∃ cl', remove_vertex j v cl_k = Ok cl')
  ∧ ∃ lines, generate_pajek_communities P = (lines, None)
             ∧ length lines = S (nnodes P).
Proof.
  intros _.
  destruct (generate_loop_total (nnodes P) P (length_join_nnodes P))
    as [(body & Hg & Hb) Hsteps].
  split; [done|]. eexists. rewrite generate_unfold, Hg.
  split; [done|]. simpl. by rewrite Hb.
Qed.

Example I1_example : I1 [[3; 0]; [1; 2]] ∧ ¬ I1 [[0]; [0]] ∧ ¬ I1 [[1]].
Proof.
  unfold I1. split_and!.
  - by apply (bool_decide_unpack _).
  - by apply (bool_decide_eq_false_1 _).
  - by apply (bool_decide_eq_false_1 _).
Qed.

Lemma generate_rounds_succeed_witness :
  ∃ lines, generate_pajek_communities [[3; 0]; [1; 2]] = (lines, None)
           ∧ length lines = 5%nat.
Proof.
  apply (generate_rounds_succeed [[3; 0]; [1; 2]]).
  unfold I1. apply (bool_decide_unpack _). vm_compute. reflexivity.
Defined.

(** ** The line of a vertex *)

Lemma owner_unique (cl : list (list Z)) : ∀ j1 j2 c1 c2 x,
  NoDup (mjoin cl) →
  cl !! j1 = Some c1 → cl !! j2 = Some c2 → x ∈ c1 → x ∈ c2 → j1 = j2.
Proof.
  induction cl as [|c cl IH]; intros j1 j2 c1 c2 x Hnd H1 H2 Hx1 Hx2;
    [done|].
  simpl in Hnd. apply NoDup_app in Hnd as (_ & Hdisj & Hnd).
  destruct j1 as [|j1], j2 as [|j2]; simplify_eq/=; [done| | |].
  - destruct (Hdisj x Hx1). apply list_elem_of_join. exists c2.
    split; [done|]. by eapply list_elem_of_lookup_2.
  - destruct (Hdisj x Hx2). apply list_elem_of_join. exists c1.
    split; [done|]. by eapply list_elem_of_lookup_2.
  - f_equal. by eapply IH.
Qed.

Lemma generate_loop_owner n : ∀ k cl,
  mjoin cl ≡ₚ seqZ k (Z.of_nat n) →
  ∃ owners : list nat,
    generate_loop n cl = (line_of <$> owners, None)
    ∧ length owners = n
    ∧ ∀ (i : nat) j c,
        (i < n)%nat → cl !! j = Some c → k + Z.of_nat i ∈ c →
        owners !! i = Some j.
Proof.
  induction n as [|n IH]; intros k cl Hperm.
  - exists []. split_and!; [done..|]. intros i j c Hi. lia.
  - rewrite seqZ_cons in Hperm by lia.
    replace (Z.pred (Z.of_nat (S n))) with (Z.of_nat n) in Hperm by lia.
    assert (mjoin cl ≠ []) as Hne.
    { intros Heq. rewrite Heq in Hperm. by apply Permutation_nil_cons in Hperm. }
    destruct (round_ok cl Hne)
      as (v & j0 & c0 & c0' & _ & Hf & Hr & Hmin & Hfind & Hp).
    apply list_find_Some in Hfind as (Hj0 & Hvc0 & _).
    assert (v = k) as ->.
    { assert (k <= v).
      { assert (v ∈ mjoin cl) as Hv.
        { apply list_elem_of_join. exists c0. split; [done|].
          by eapply list_elem_of_lookup_2. }
        rewrite Hperm in Hv.
        apply elem_of_cons in Hv as [->|Hv%elem_of_seqZ]; lia. }
      assert (v <= k); [|lia].
      apply Hmin. rewrite Hperm. apply elem_of_cons. by left. }
    pose proof (join_insert_Permutation cl j0 c0 c0' k Hj0 Hp) as Hcl.
    assert (NoDup (mjoin cl)) as Hnd.
    { rewrite Hperm. apply NoDup_cons. split; [|apply NoDup_seqZ].
      rewrite elem_of_seqZ. lia. }
    assert (mjoin (<[j0:=c0']> cl) ≡ₚ seqZ (Z.succ k) (Z.of_nat n)) as Hperm'.
    { rewrite Hcl in Hperm. by apply (inj (k ::.)) in Hperm. }
    destruct (IH _ _ Hperm') as (owners & Hg & Hb & Hown).
    exists (j0 :: owners). split_and!.
    + simpl. by rewrite Hf, Hr, Hg.
    + simpl. by rewrite Hb.
    + intros [|i] j c Hi Hj Hin.
      * rewrite Z.add_0_r in Hin. simpl.
        by rewrite (owner_unique cl j j0 c c0 k).
      * simpl. destruct (decide (j = j0)) as [->|Hjne].
        -- rewrite Hj0 in Hj. injection Hj as <-.
           apply (Hown i j0 c0'); [lia| |].
           ++ apply list_lookup_insert_eq. by eapply lookup_lt_Some.
           ++ rewrite Hp in Hin. apply elem_of_cons in Hin as [Heq|Hin];
                [lia|]. by replace (Z.succ k + Z.of_nat i)
                           with (k + Z.of_nat (S i)) by lia.
        -- apply (Hown i j c); [lia| |].
           ++ by rewrite list_lookup_insert_ne.
           ++ by replace (Z.succ k + Z.of_nat i)
                with (k + Z.of_nat (S i)) by lia.
Qed.

(** C2: for a Partition satisfying I1 with [N] vertices, the generator
    yields the header [*Vertices N] and then [N] lines, and the line at
    position [i] of these is the 1-based position of the Community that
    holds vertex [i], wherever the vertex stands inside the Community. *)
Theorem generate_line_of_vertex P :
  I1 P →
  ∃ body,
    generate_pajek_communities P
    = (("*Vertices " +:+ Str.of_int (Z.of_nat (nnodes P))) :: body, None)
    ∧ length body = nnodes P
    ∧ ∀ i, (i < nnodes P)%nat →
        (∃ j c, P !! j = Some c ∧ Z.of_nat i ∈ c)
        ∧ ∀ j c, P !! j = Some c → Z.of_nat i ∈ c →
            body !! i = Some (Str.of_int (Z.of_nat j + 1)).
Proof.
  intros HI. unfold I1 in HI.
  destruct (generate_loop_owner _ 0 P HI) as (owners & Hg & Hb & Hown).
  exists (line_of <$> owners). rewrite generate_unfold, Hg.
  split_and!; [done|by rewrite length_fmap|].
  intros i Hi. split.
  - assert (Z.of_nat i ∈ mjoin P)
      as (c & Hin & [j Hj]%list_elem_of_lookup_1)%list_elem_of_join.
    { rewrite HI. apply elem_of_seqZ. lia. }
    by exists j, c.
  - intros j c Hj Hin. by rewrite list_lookup_fmap, (Hown i j c).
Qed.

Lemma generate_line_of_vertex_witness :
  ∃ body,
    generate_pajek_communities [[3; 0]; [1; 2]]
    = ("*Vertices 4" :: body, None)
    ∧ length body = 4%nat
    ∧ ∀ i, (i < 4)%nat →
        (∃ j c, [[3; 0]; [1; 2]] !! j = Some c ∧ Z.of_nat i ∈ c)
        ∧ ∀ j c, [[3; 0]; [1; 2]] !! j = Some c → Z.of_nat i ∈ c →
            body !! i = Some (Str.of_int (Z.of_nat j + 1)).
Proof.
  apply (generate_line_of_vertex [[3; 0]; [1; 2]]).
  unfold I1. apply (bool_decide_unpack _). vm_compute. reflexivity.
Defined.

(** ** Facts about strings *)

Ltac each_char c := destruct c as [[] [] [] [] [] [] [] []]; vm_compute.

Lemma app_empty_l (t : string) : "" +:+ t = t.
Proof. done. Qed.

Lemma app_String c (s t : string) : String c s +:+ t = String c (s +:+ t).
Proof. done. Qed.

(** [String.append] does not unfold under [simpl]. *)
Ltac simpl_app := rewrite ?app_String, ?app_empty_l; simpl.

Lemma app_empty_r (s : string) : s +:+ "" = s.
Proof. induction s as [|c s IH]; simpl_app; [done|by rewrite IH]. Qed.

Lemma app_snoc_assoc (s t : string) c :
  (s +:+ String c "") +:+ t = s +:+ String c t.
Proof. induction s as [|x s IH]; simpl_app; [done|by rewrite IH]. Qed.

Lemma all_chars_impl (p q : ascii → bool) s :
  (∀ c, p c = true → q c = true) →
  all_chars p s = true → all_chars q s = true.
Proof.
  intros Hpq. induction s as [|c s IH]; simpl; [done|].
  intros [Hc Hs]%andb_prop. by rewrite (Hpq c Hc), IH.
Qed.

Lemma all_chars_app p s t :
  all_chars p (s +:+ t) = all_chars p s && all_chars p t.
Proof.
  induction s as [|c s IH]; simpl_app; [done|]. by rewrite IH, andb_assoc.
Qed.

Lemma newline_int_isspace c : Str.is_newline c = true → Str.int_isspace c = true.
Proof. by each_char c. Qed.

Lemma int_isspace_isspace c : Str.int_isspace c = true → Str.isspace c = true.
Proof. by each_char c. Qed.

Lemma int_isspace_lower c : Str.int_isspace c = true → Str.lower_char c = c.
Proof. by each_char c. Qed.

Lemma digit_not_isspace c : is_digit c = true → Str.isspace c = false.
Proof. by each_char c. Qed.

Lemma digit_not_int_isspace c : is_digit c = true → Str.int_isspace c = false.
Proof. by each_char c. Qed.

Lemma digit_not_newline c : is_digit c = true → Str.is_newline c = false.
Proof. by each_char c. Qed.

(** *** Stripping *)

Lemma rstrip_all p s : all_chars p s = true → Str.rstrip p s = "".
Proof.
  induction s as [|c s IH]; simpl; [done|].
  intros [Hc Hs]%andb_prop. by rewrite IH, Hc.
Qed.

Lemma rstrip_none p s :
  all_chars (λ c, negb (p c)) s = true → Str.rstrip p s = s.
Proof.
  induction s as [|c s IH]; simpl; [done|].
  intros [Hc Hs]%andb_prop. rewrite IH by done.
  apply negb_true_iff in Hc. rewrite Hc. by destruct s.
Qed.

Lemma rstrip_app_blank p s ws :
  all_chars p ws = true → Str.rstrip p (s +:+ ws) = Str.rstrip p s.
Proof.
  intros Hws. induction s as [|c s IH]; simpl_app.
  - by apply rstrip_all.
  - by rewrite IH.
Qed.

Lemma rstrip_snoc_keep p s c :
  p c = false → Str.rstrip p (s +:+ String c "") = s +:+ String c "".
Proof.
  intros Hc. induction s as [|x s IH]; simpl_app.
  - by rewrite Hc.
  - rewrite IH. by destruct s.
Qed.

Lemma rstrip_decompose p s :
  ∃ ws, s = Str.rstrip p s +:+ ws ∧ all_chars p ws = true.
Proof.
  induction s as [|c s (ws & Hs & Hws)]; simpl; [by exists ""|].
  destruct (Str.rstrip p s) as [|x r] eqn:Hr.
  - rewrite app_empty_l in Hs. subst ws. destruct (p c) eqn:Hc.
    + exists (String c s). simpl. by rewrite Hc, Hws.
    + by exists s.
  - exists ws. split; [|done]. rewrite app_String. by rewrite <- Hs.
Qed.

Lemma lstrip_all p s : all_chars p s = true → Str.lstrip p s = "".
Proof.
  induction s as [|c s IH]; simpl; [done|].
  intros [Hc Hs]%andb_prop. by rewrite Hc, IH.
Qed.

Lemma strip_app_blank p s ws :
  all_chars p ws = true →
  Str.rstrip p (Str.lstrip p (s +:+ ws)) = Str.rstrip p (Str.lstrip p s).
Proof.
  intros Hws. induction s as [|c s IH]; simpl_app.
  - by rewrite lstrip_all.
  - destruct (p c); [done|]. rewrite <- app_String.
    by apply rstrip_app_blank.
Qed.

(** *** [split] *)

Lemma split_from_app_blank ws : all_chars Str.isspace ws = true →
  ∀ s tok, Str.split_from tok (s +:+ ws) = Str.split_from tok s.
Proof.
  intros Hws. assert (∀ tok, Str.split_from tok ws = Str.split_from tok "") as Hb.
  { induction ws as [|c ws IH]; [done|]. simpl in Hws.
    apply andb_prop in Hws as [Hc Hws]. intros tok. simpl. rewrite Hc.
    rewrite (IH Hws ""). simpl. by destruct (String.eqb tok ""). }
  induction s as [|c s IH]; intros tok; simpl_app; [apply Hb|].
  by rewrite !IH.
Qed.

Lemma split_from_no_blank s : all_chars (λ c, negb (Str.isspace c)) s = true →
  ∀ tok, tok +:+ s ≠ "" → Str.split_from tok s = [tok +:+ s].
Proof.
  induction s as [|c s IH]; simpl.
  - intros _ tok. rewrite app_empty_r. intros Hne.
    by apply String.eqb_neq in Hne as ->.
  - intros [Hc Hs]%andb_prop tok Hne. apply negb_true_iff in Hc.
    rewrite Hc, IH, app_snoc_assoc; [done..|].
    rewrite app_snoc_assoc. by destruct tok.
Qed.

(** *** [int] and [str] *)

Lemma int_app_blank s ws :
  all_chars Str.int_isspace ws = true → Str.int (s +:+ ws) = Str.int s.
Proof. intros Hws. unfold Str.int. by rewrite strip_app_blank. Qed.

Lemma digits_string_of_uint d :
  Str.digits false (NilEmpty.string_of_uint d) = Some d.
Proof. induction d; simpl; try done; by rewrite IHd. Qed.

Lemma all_digits_string_of_uint d :
  all_chars is_digit (NilEmpty.string_of_uint d) = true.
Proof. induction d; simpl; try done; by rewrite IHd. Qed.

Lemma digit_not_sign c :
  is_digit c = true →
  Ascii.eqb c "+" = false ∧ Ascii.eqb c "-" = false
  ∧ Str.is_underscore c = false.
Proof. by each_char c. Qed.

Lemma int_digits s :
  s ≠ "" → all_chars is_digit s = true →
  Str.int s = option_map Z.of_uint (Str.digits false s).
Proof.
  intros Hne Hs. unfold Str.int.
  destruct s as [|c s]; [done|]. pose proof Hs as Hs'. simpl in Hs'.
  apply andb_prop in Hs' as [Hc _].
  destruct (digit_not_sign c Hc) as (Hplus & Hminus & Hus).
  cbn [Str.lstrip]. rewrite (digit_not_int_isspace c Hc), rstrip_none.
  - unfold Str.unsigned_literal. by rewrite Hplus, Hminus, Hus.
  - eapply all_chars_impl, Hs. intros x Hx.
    by rewrite (digit_not_int_isspace x Hx).
Qed.

Lemma of_int_digits z :
  0 <= z →
  ∃ d, Str.of_int z = NilEmpty.string_of_uint d
       ∧ Str.of_int z ≠ "" ∧ Z.of_uint d = z.
Proof.
  intros Hz. unfold Str.of_int. destruct z as [|p|p]; [by exists (Decimal.D0 Decimal.Nil)| |lia].
  exists (Pos.to_uint p). simpl.
  pose proof (DecimalPos.Unsigned.to_uint_nonnil p) as Hnn.
  pose proof (DecimalPos.Unsigned.of_to p) as Hof.
  unfold NilZero.string_of_uint, Z.of_uint. rewrite Hof.
  destruct (Pos.to_uint p); by try done.
Qed.

Lemma all_digits_of_int z : 0 <= z → all_chars is_digit (Str.of_int z) = true.
Proof.
  intros (d & -> & _)%of_int_digits. apply all_digits_string_of_uint.
Qed.

Lemma int_of_int z : 0 <= z → Str.int (Str.of_int z) = Some z.
Proof.
  intros Hz. destruct (of_int_digits z Hz) as (d & Hd & Hne & Hv).
  rewrite int_digits by (done || by apply all_digits_of_int).
  by rewrite Hd, digits_string_of_uint, <- Hv.
Qed.

Lemma rstrip_newline_of_int z :
  0 <= z → Str.rstrip Str.is_newline (Str.of_int z) = Str.of_int z.
Proof.
  intros Hz. apply rstrip_none. eapply all_chars_impl, all_digits_of_int; [|done].
  intros c Hc. by rewrite (digit_not_newline c Hc).
Qed.

(** ** Trailing blanks on a line *)

Lemma app_assoc_string (s t u : string) : (s +:+ t) +:+ u = s +:+ (t +:+ u).
Proof. induction s as [|x s IH]; simpl_app; [done|by rewrite IH]. Qed.

Lemma lower_app s t : Str.lower (s +:+ t) = Str.lower s +:+ Str.lower t.
Proof. induction s as [|c s IH]; simpl_app; [done|by rewrite IH]. Qed.

Lemma lower_blank ws :
  all_chars Str.int_isspace ws = true → Str.lower ws = ws.
Proof.
  induction ws as [|c ws IH]; simpl; [done|].
  intros [Hc Hws]%andb_prop. by rewrite IH, int_isspace_lower.
Qed.

Lemma prefix_app_other (q : ascii → bool) ws :
  all_chars q ws = true →
  ∀ a p, all_chars (λ c, negb (q c)) p = true →
    String.prefix p (a +:+ ws) = String.prefix p a.
Proof.
  intros Hws. induction a as [|x a IH]; intros p Hp; simpl_app.
  - destruct p as [|c p]; [by destruct ws|].
    destruct ws as [|w ws]; [done|]. simpl in *.
    destruct (ascii_dec c w) as [->|]; [|done].
    apply andb_prop in Hws as [Hw _]. apply andb_prop in Hp as [Hc _].
    by rewrite Hw in Hc.
  - destruct p as [|c p]; [done|]. simpl in *.
    apply andb_prop in Hp as [_ Hp].
    destruct (ascii_dec c x); [by apply IH|done].
Qed.

Lemma is_header_blank_suffix m' m : blank_suffix m' m → is_header m' = is_header m.
Proof.
  intros (ws & -> & Hws). unfold is_header, Str.startswith.
  rewrite lower_app, (lower_blank ws Hws).
  by apply (prefix_app_other Str.int_isspace).
Qed.

Lemma split_blank_suffix m' m : blank_suffix m' m → Str.split m' = Str.split m.
Proof.
  intros (ws & -> & Hws). apply split_from_app_blank.
  eapply all_chars_impl, Hws. apply int_isspace_isspace.
Qed.

Lemma int_blank_suffix m' m : blank_suffix m' m → Str.int m' = Str.int m.
Proof. intros (ws & -> & Hws). by apply int_app_blank. Qed.

Lemma read_assignments_blank_suffix n : ∀ vertex lines' lines communities,
  Forall2 blank_suffix lines' lines →
  match read_assignments n vertex lines communities with
  | Ok (d, rest) =>
      ∃ rest', read_assignments n vertex lines' communities = Ok (d, rest')
               ∧ Forall2 blank_suffix rest' rest
  | Raise e => read_assignments n vertex lines' communities = Raise e
  end.
Proof.
  induction n as [|n IH]; intros vertex lines' lines communities Hl; simpl.
  - by exists lines'.
  - destruct Hl as [|l' l lines' lines Hl Hrest]; [done|].
    rewrite (int_blank_suffix _ _ Hl). destruct (Str.int l); [|done].
    by apply IH.
Qed.

Lemma parse_loop_blank_suffix lines : ∀ communities lines',
  Forall2 blank_suffix lines' lines →
  parse_loop communities lines' = parse_loop communities lines.
Proof.
  remember (length lines) as n eqn:Hn. revert lines Hn.
  induction n as [n IH] using lt_wf_ind. intros lines -> communities lines' Hl.
  destruct Hl as [|l' l lines' lines Hl Hrest]; [done|].
  rewrite !parse_loop_cons, (is_header_blank_suffix _ _ Hl),
    (split_blank_suffix _ _ Hl).
  destruct (is_header l); [|done].
  destruct (Str.split l) as [|t [|nnodes [|]]]; try done.
  destruct (Str.int nnodes) as [N|]; [|done].
  pose proof (read_assignments_blank_suffix (Z.to_nat N) 0 _ _ [] Hrest) as Hr.
  destruct (read_assignments (Z.to_nat N) 0 lines []) as [[d rest]|e] eqn:Hread.
  - destruct Hr as (rest' & -> & Hrest').
    apply read_assignments_shorter in Hread.
    apply (IH (length rest)); [simpl; lia|done..].
  - by rewrite Hr.
Qed.

Lemma rstrip_newline_CR l :
  blank_suffix (Str.rstrip Str.is_newline (l +:+ CR))
    (Str.rstrip Str.is_newline l)
  ∧ blank_suffix (Str.rstrip Str.is_newline (l +:+ CRLF))
      (Str.rstrip Str.is_newline l).
Proof.
  assert (blank_suffix (l +:+ CR) (Str.rstrip Str.is_newline l)) as Hcr.
  { destruct (rstrip_decompose Str.is_newline l) as (ws & Hl & Hws).
    exists (ws +:+ CR). split.
    - by rewrite <- app_assoc_string, <- Hl.
    - rewrite all_chars_app, (all_chars_impl _ _ _ newline_int_isspace Hws).
      done. }
  unfold CR, CRLF in *. split.
  - by rewrite rstrip_snoc_keep.
  - rewrite <- (app_snoc_assoc l (String "010" "") "013").
    rewrite rstrip_app_blank by done. by rewrite rstrip_snoc_keep.
Qed.

Lemma input_lines_CR (ls : list string) :
  Forall2 blank_suffix (input_lines (Lines ((λ l, l +:+ CR) <$> ls)))
    (input_lines (Lines ls))
  ∧ Forall2 blank_suffix (input_lines (Lines ((λ l, l +:+ CRLF) <$> ls)))
      (input_lines (Lines ls)).
Proof.
  unfold input_lines.
  split; rewrite <- list_fmap_compose;
    apply Forall2_fmap, Forall2_same_length_lookup_2; try done;
    intros i x y Hx Hy; rewrite Hx in Hy; injection Hy as <-;
    apply rstrip_newline_CR.
Qed.

(** C10: the function returns the same Partition, or raises the same
    exception, when every line carries a carriage return at its end; and
    also when every line carries the CR LF that [write_pajek_communities]
    puts after it. *)
Theorem parse_trailing_CR (ls : list string) :
  parse_pajek_communities (Lines ((λ l, l +:+ CR) <$> ls))
  = parse_pajek_communities (Lines ls)
  ∧ parse_pajek_communities (Lines ((λ l, l +:+ CRLF) <$> ls))
    = parse_pajek_communities (Lines ls).
Proof.
  unfold parse_pajek_communities.
  split; apply parse_loop_blank_suffix, input_lines_CR.
Qed.

(** A file made of the chunks that [write_pajek_communities] writes, one
    line each, is read as the lines that [generate_pajek_communities]
    yields are parsed. *)
Lemma read_written P :
  read_pajek_communities (write_pajek_communities P).1
  = parse_pajek_communities (Lines (generate_pajek_communities P).1).
Proof.
  unfold read_pajek_communities, write_pajek_communities,
    parse_pajek_communities.
  destruct (generate_pajek_communities P) as [lines e]. simpl.
  apply parse_loop_blank_suffix, (input_lines_CR lines).
Qed.

(** ** Reading back what was generated *)

Lemma members_S c k :
  members c (S k)
  = members c k ++ (if decide (Z.of_nat k ∈ c) then [Z.of_nat k] else []).
Proof.
  unfold members. rewrite seqZ_S, filter_app, filter_cons, Z.add_0_l.
  by destruct (decide (Z.of_nat k ∈ c)).
Qed.

Lemma elem_of_members c k x :
  x ∈ members c k ↔ x ∈ c ∧ 0 <= x < Z.of_nat k.
Proof.
  unfold members. rewrite list_elem_of_filter, elem_of_seqZ. intuition lia.
Qed.

Lemma members_nil c k :
  members c k = [] ↔ ∀ x, x ∈ c → 0 <= x → Z.of_nat k <= x.
Proof.
  split.
  - intros Hnil x Hx H0. destruct (decide (Z.of_nat k <= x)); [done|].
    assert (x ∈ members c k) as Hin
      by (apply elem_of_members; split; [done|lia]).
    rewrite Hnil in Hin. by apply elem_of_nil in Hin.
  - intros Hall. destruct (members c k) as [|x l] eqn:Hm; [done|].
    assert (x ∈ members c k) as [Hx Hlt]%elem_of_members
      by (rewrite Hm; apply elem_of_cons; by left).
    specialize (Hall x Hx). lia.
Qed.

Lemma entries_same b k P :
  Forall (λ c, Z.of_nat k ∉ c) P → entries b (S k) P = entries b k P.
Proof.
  intros HP. revert b. induction HP as [|c P Hc _ IH]; intros b; [done|].
  assert (members c (S k) = members c k) as Hm.
  { by rewrite members_S, decide_False, app_nil_r. }
  cbn [entries]. by rewrite IH, Hm.
Qed.

Lemma entries_empty b k P :
  Forall (λ c, members c k = []) P → entries b k P = [].
Proof.
  intros HP. revert b. induction HP as [|c P Hc _ IH]; intros b; simpl; [done|].
  by rewrite IH, decide_True.
Qed.

Lemma entries_step k P : ∀ b j0 c0,
  StronglySorted before P →
  Forall (λ c, ∀ x, x ∈ c → 0 <= x) P →
  P !! j0 = Some c0 → Z.of_nat k ∈ c0 →
  (∀ j c, P !! j = Some c → Z.of_nat k ∈ c → j = j0) →
  setdefault_append (b + Z.of_nat j0) (Z.of_nat k) (entries b k P)
  = entries b (S k) P.
Proof.
  induction P as [|c P IH]; intros b j0 c0 Hsort Hpos Hj0 Hk Huniq; [done|].
  apply StronglySorted_cons in Hsort as [Hbefore Hsort].
  apply Forall_cons in Hpos as [Hposc Hpos].
  destruct j0 as [|j0]; simpl in Hj0.
  - injection Hj0 as ->. rewrite Z.add_0_r.
    assert (Forall (λ c, Z.of_nat k ∉ c) P) as Hothers.
    { apply Forall_forall. intros c' [j Hj]%list_elem_of_lookup_1 Hin.
      by specialize (Huniq (S j) c' Hj Hin). }
    assert (members c0 (S k) = members c0 k ++ [Z.of_nat k]) as Hm.
    { by rewrite members_S, decide_True. }
    cbn [entries]. rewrite (entries_same _ _ _ Hothers), Hm.
    destruct (decide (members c0 k = [])) as [Hnil|Hne].
    + rewrite Hnil, entries_empty; [done|].
      apply Forall_forall. intros c' Hc'. apply members_nil. intros y Hy _.
      rewrite Forall_forall in Hbefore. specialize (Hbefore c' Hc').
      unfold before in Hbefore.
      destruct (py_min c0) as [m0|] eqn:Hm0; [|done].
      destruct (py_min c') as [m'|] eqn:Hm'; [|done].
      pose proof (py_min_elem_of _ _ Hm0) as Hin0.
      pose proof (proj1 (members_nil c0 k) Hnil m0 Hin0 (Hposc m0 Hin0)).
      pose proof (py_min_le _ _ y Hm' Hy). lia.
    + destruct (members c0 k) as [|x ms] eqn:Hms; [done|].
      rewrite decide_False by done. simpl. by rewrite Z.eqb_refl.
  - assert (Z.of_nat k ∉ c) as Hnot.
    { intros Hin. by specialize (Huniq 0%nat c eq_refl Hin). }
    assert (members c (S k) = members c k) as Hm.
    { by rewrite members_S, decide_False, app_nil_r. }
    cbn [entries]. rewrite Hm.
    assert (setdefault_append (b + Z.of_nat (S j0)) (Z.of_nat k)
              (entries (b + 1) k P) = entries (b + 1) (S k) P) as Htail.
    { replace (b + Z.of_nat (S j0)) with (b + 1 + Z.of_nat j0) by lia.
      apply (IH _ _ c0); try done.
      intros j c' Hj Hin. specialize (Huniq (S j) c' Hj Hin). lia. }
    destruct (decide (members c k = [])); [done|]. simpl.
    destruct (Z.eqb_spec b (b + Z.of_nat (S j0))) as [Heq|_]; [lia|].
    by rewrite Htail.
Qed.

Lemma values_entries b k P :
  Forall (λ c, members c k ≠ []) P →
  values (entries b k P) = (λ c, members c k) <$> P.
Proof.
  intros HP. revert b. induction HP as [|c P Hc _ IH]; intros b; simpl; [done|].
  rewrite decide_False by done. unfold values in *. simpl. by rewrite IH.
Qed.

Lemma NoDup_join_elem_of (P : list (list Z)) c :
  NoDup (mjoin P) → c ∈ P → NoDup c.
Proof.
  induction P as [|c' P IH]; [by intros _ ?%elem_of_nil|]. simpl.
  intros (Hc' & _ & HP)%NoDup_app [->|Hin]%elem_of_cons; [done|by apply IH].
Qed.

Lemma members_sorted c k : StronglySorted Z.lt (members c k).
Proof.
  induction k as [|k IH]; [constructor|]. rewrite members_S.
  apply StronglySorted_app_2; [|done|].
  - intros x1 x2 [_ Hx1]%elem_of_members Hx2.
    destruct (decide (Z.of_nat k ∈ c)); [|by apply elem_of_nil in Hx2].
    apply list_elem_of_singleton in Hx2. lia.
  - destruct (decide (Z.of_nat k ∈ c)); repeat constructor.
Qed.

Lemma members_Permutation c k :
  NoDup c → (∀ x, x ∈ c → 0 <= x < Z.of_nat k) → members c k ≡ₚ c.
Proof.
  intros Hnd Hrange. apply NoDup_Permutation; [|done|].
  - apply NoDup_filter, NoDup_seqZ.
  - intros x. rewrite elem_of_members. split; [by intros [? _]|].
    intros Hx. split; [done|by apply Hrange].
Qed.

Lemma split_from_token s1 : all_chars (λ c, negb (Str.isspace c)) s1 = true →
  ∀ tok c s2, Str.isspace c = true → tok +:+ s1 ≠ "" →
    Str.split_from tok (s1 +:+ String c s2)
    = (tok +:+ s1) :: Str.split_from "" s2.
Proof.
  induction s1 as [|x s1 IH]; simpl_app.
  - intros _ tok c s2 Hc. rewrite app_empty_r. intros Hne. rewrite Hc.
    by apply String.eqb_neq in Hne as ->.
  - intros [Hx Hs1]%andb_prop tok c s2 Hc Hne. apply negb_true_iff in Hx.
    rewrite Hx, IH, app_snoc_assoc; [done..|].
    rewrite app_snoc_assoc. by destruct tok.
Qed.

Lemma header_declares N :
  0 <= N → declares ("*Vertices " +:+ Str.of_int N) N.
Proof.
  intros HN. split; [done|]. exists "*Vertices", (Str.of_int N).
  split; [|by apply int_of_int].
  destruct (of_int_digits N HN) as (_ & _ & Hne & _).
  change ("*Vertices " +:+ Str.of_int N)
    with ("*Vertices" +:+ String " " (Str.of_int N)).
  unfold Str.split. rewrite split_from_token by done.
  rewrite split_from_no_blank; [done| |done].
  eapply all_chars_impl, all_digits_of_int; [|done].
  intros c Hc. by rewrite (digit_not_isspace c Hc).
Qed.

Lemma header_clean N :
  0 <= N →
  Str.rstrip Str.is_newline ("*Vertices " +:+ Str.of_int N)
  = "*Vertices " +:+ Str.of_int N.
Proof.
  intros HN. apply rstrip_none. rewrite all_chars_app. apply andb_true_intro.
  split; [done|]. eapply all_chars_impl, all_digits_of_int; [|done].
  intros c Hc. by rewrite (digit_not_newline c Hc).
Qed.

Lemma dict_of_owners P (L : list Z) :
  I1 P → StronglySorted before P →
  length L = nnodes P →
  (∀ (i : nat) j c, (i < nnodes P)%nat → P !! j = Some c → Z.of_nat i ∈ c →
     L !! i = Some (Z.of_nat j + 1)) →
  ∀ k, (k <= nnodes P)%nat → dict_of (take k L) = entries 1 k P.
Proof.
  intros HI Hsort Hlen HL. unfold I1 in HI.
  assert (NoDup (mjoin P)) as Hnd by (rewrite HI; apply NoDup_seqZ).
  assert (Forall (λ c, ∀ x, x ∈ c → 0 <= x) P) as Hpos.
  { apply Forall_forall. intros c Hc x Hx.
    assert (x ∈ mjoin P) as Hin by (apply list_elem_of_join; by exists c).
    rewrite HI in Hin. apply elem_of_seqZ in Hin. lia. }
  induction k as [|k IH]; intros Hk.
  - rewrite take_0. symmetry. apply entries_empty, Forall_forall.
    intros c _. done.
  - assert (Z.of_nat k ∈ mjoin P)
      as (c0 & Hin & [j0 Hj0]%list_elem_of_lookup_1)%list_elem_of_join.
    { rewrite HI. apply elem_of_seqZ. lia. }
    pose proof (HL k j0 c0 ltac:(lia) Hj0 Hin) as HLk.
    rewrite (take_S_r _ _ _ HLk), <- dict_of_snoc, IH by lia.
    rewrite length_take_le by lia.
    replace (Z.of_nat j0 + 1) with (1 + Z.of_nat j0) by lia.
    apply (entries_step k P 1 j0 c0); try done.
    intros j c Hj Hc. by eapply owner_unique.
Qed.

(** C1, as stated, fails: [[[1]; [0]]] satisfies I1, and what is read
    back is [[[0]; [1]]], whose first Community does not have the members
    of the first Community of the argument. *)
Lemma roundtrip_reorders :
  ¬ ∀ P, I1 P →
      ∃ lines Q,
        generate_pajek_communities P = (lines, None)
        ∧ parse_pajek_communities (Lines lines) = Ok Q
        ∧ Forall2 (≡ₚ) Q P.
Proof.
  intros H. destruct (H [[1]; [0]]) as (lines & Q & Hg & Hp & HQ).
  { unfold I1. by apply (bool_decide_unpack _). }
  vm_compute in Hg. injection Hg as <-.
  vm_compute in Hp. injection Hp as <-.
  apply Forall2_cons_1 in HQ as [HQ _].
  apply Permutation_singleton_l in HQ. discriminate HQ.
Qed.

(** C1, amended: for a Partition satisfying I1 whose Communities are not
    empty and stand in the order of their least vertices, parsing what
    the generator yields returns the Communities in the same order, each
    with the same members, in increasing order; it returns the Partition
    itself when the members of every Community are in increasing order. *)
Theorem roundtrip P :
  I1 P →
  Forall (λ c, c ≠ []) P →
  StronglySorted before P →
  ∃ lines Q,
    generate_pajek_communities P = (lines, None)
    ∧ parse_pajek_communities (Lines lines) = Ok Q
    ∧ Forall2 (λ q c, q ≡ₚ c ∧ StronglySorted Z.lt q) Q P
    ∧ (Forall (StronglySorted Z.lt) P → Q = P).
Proof.
  intros HI Hne Hsort. pose proof HI as HI'. unfold I1 in HI'.
  assert (NoDup (mjoin P)) as Hnd by (rewrite HI'; apply NoDup_seqZ).
  assert (∀ c, c ∈ P → ∀ x, x ∈ c → 0 <= x < Z.of_nat (nnodes P)) as Hrange.
  { intros c Hc x Hx.
    assert (x ∈ mjoin P) as Hin by (apply list_elem_of_join; by exists c).
    rewrite HI' in Hin. apply elem_of_seqZ in Hin. lia. }
  destruct (generate_loop_owner (nnodes P) 0 P HI') as (owners & Hg & Hlen & Hown).
  set (L := (λ j : nat, Z.of_nat j + 1) <$> owners).
  exists (("*Vertices " +:+ Str.of_int (Z.of_nat (nnodes P))) :: (line_of <$> owners)),
    ((λ c, members c (nnodes P)) <$> P).
  split_and!.
  - by rewrite generate_unfold, Hg.
  - unfold parse_pajek_communities, input_lines. rewrite fmap_cons.
    rewrite header_clean by lia.
    assert (Str.rstrip Str.is_newline <$> (line_of <$> owners)
            = line_of <$> owners) as ->.
    { rewrite <- list_fmap_compose. apply Forall_fmap_ext_1, Forall_forall.
      intros j _. apply rstrip_newline_of_int. lia. }
    rewrite (parse_loop_section _ _ (Z.of_nat (nnodes P))) by (apply header_declares; lia).
    assert (labelled (line_of <$> owners) L) as Hlab.
    { apply Forall2_fmap, Forall_Forall2_diag, Forall_forall.
      intros j _. apply int_of_int. lia. }
    pose proof (read_assignments_exact _ _ 0 [] [] Hlab) as Hr.
    rewrite app_nil_r, length_fmap, Hlen in Hr.
    rewrite Nat2Z.id, Hr, parse_loop_nil. simpl. f_equal.
    pose proof (assign_dict_of L []) as Ha.
    change (assign 0 L [] = dict_of L) in Ha. rewrite Ha.
    rewrite <- (take_ge L (nnodes P)) by (unfold L; rewrite length_fmap; lia).
    rewrite (dict_of_owners P L HI Hsort); [| |  |done].
    + apply values_entries, Forall_forall. intros c Hc Hnil.
      rewrite Forall_forall in Hne. specialize (Hne c Hc).
      destruct c as [|x c]; [done|].
      assert (x ∈ x :: c) as Hx by (apply elem_of_cons; by left).
      pose proof (Hrange _ Hc x Hx).
      pose proof (proj1 (members_nil _ _) Hnil x Hx). lia.
    + unfold L. by rewrite length_fmap.
    + intros i j c Hi Hj Hin. unfold L.
      by rewrite list_lookup_fmap, (Hown i j c).
  - apply Forall2_fmap_l, Forall_Forall2_diag, Forall_forall.
    intros c Hc. split; [|apply members_sorted].
    apply members_Permutation; [by eapply NoDup_join_elem_of|by apply Hrange].
  - intros Hinc. rewrite <- (list_fmap_id P) at 2.
    apply Forall_fmap_ext_1, Forall_forall. intros c Hc.
    apply (StronglySorted_unique_strong Z.lt).
    + intros x1 x2 _ _ ??. lia.
    + apply members_sorted.
    + rewrite Forall_forall in Hinc. by apply Hinc.
    + apply members_Permutation;
        [by eapply NoDup_join_elem_of|by apply Hrange].
Qed.

Lemma roundtrip_witness :
  ∃ lines Q,
    generate_pajek_communities [[0; 3]; [1; 2]] = (lines, None)
    ∧ parse_pajek_communities (Lines lines) = Ok Q
    ∧ Forall2 (λ q c, q ≡ₚ c ∧ StronglySorted Z.lt q) Q [[0; 3]; [1; 2]]
    ∧ (Forall (StronglySorted Z.lt) [[0; 3]; [1; 2]] → Q = [[0; 3]; [1; 2]]).
Proof.
  apply (roundtrip [[0; 3]; [1; 2]]).
  - unfold I1. apply (bool_decide_unpack _). vm_compute. reflexivity.
  - by repeat constructor.
  - by repeat constructor.
Defined.

(** ** Which line is the header *)

Lemma prefix_app p x : String.prefix p (p +:+ x) = true.
Proof.
  induction p as [|c p IH]; simpl_app; [by destruct x|].
  by destruct (ascii_dec c c).
Qed.

Lemma prefix_lower p : ∀ l,
  String.prefix p (Str.lower l) = true ↔
  ∃ w r, l = w +:+ r ∧ Str.lower w = p.
Proof.
  induction p as [|c p IH]; intros l.
  - split; [by exists "", l|]. intros _. by destruct (Str.lower l).
  - destruct l as [|x l]; simpl.
    + split; [done|]. intros (w & r & Hl & Hw). by destruct w.
    + destruct (ascii_dec c (Str.lower_char x)) as [->|Hne]; split.
      * intros (w & r & -> & <-)%IH. by exists (String x w), r.
      * intros (w & r & Hl & Hw). destruct w as [|y w]; [done|].
        rewrite app_String in Hl. injection Hl as <- ->.
        injection Hw as Hw. apply IH. by exists w, r.
      * done.
      * intros (w & r & Hl & Hw). destruct w as [|y w]; [done|].
        rewrite app_String in Hl. injection Hl as <- ->.
        by injection Hw as ? _.
Qed.

Lemma split_from_first s : ∀ tok, tok ≠ "" →
  ∃ u v ts, s = u +:+ v ∧ Str.split_from tok s = (tok +:+ u) :: ts.
Proof.
  induction s as [|c s IH]; intros tok Hne; simpl.
  - exists "", "", []. split; [done|]. rewrite app_empty_r.
    by apply String.eqb_neq in Hne as ->.
  - destruct (Str.isspace c).
    + exists "", (String c s), (Str.split_from "" s). split; [done|].
      rewrite app_empty_r. by apply String.eqb_neq in Hne as ->.
    + destruct (IH (tok +:+ String c "")) as (u & v & ts & -> & Hs).
      { by destruct tok. }
      exists (String c u), v, ts. split; [done|].
      by rewrite Hs, app_snoc_assoc.
Qed.

(** C7, as stated, fails twice: a line before the header is not skipped
    (the loop stops at it), and the test of the code is not the test on
    the first token. *)
Lemma header_test_differs :
  (¬ ∀ junk h rest,
       Forall (λ l, spec_is_header l = false) junk →
       spec_is_header h = true →
       parse_pajek_communities (Lines (junk ++ h :: rest))
       = parse_pajek_communities (Lines (h :: rest)))
  ∧ (¬ ∀ l, is_header l = spec_is_header l)
  ∧ parse_pajek_communities (Lines ["*VerticesX 1"; "7"]) = Ok [[0]].
Proof.
  split_and!.
  - intros H. specialize (H ["x"] "*Vertices 1" ["7"]).
    discriminate H; [by repeat constructor|done].
  - intros H. discriminate (H "*VerticesX 1").
  - reflexivity.
Qed.

(** C7, amended: the function skips no line. A line is taken as the
    header exactly when its text begins, in either case, with the nine
    characters [*vertices], so in particular when its first token is
    that keyword and no blank stands before it. When the first line is
    not such a line, no line after it is looked at; when it is and
    announces [N] vertices, their labels are read from the lines that
    follow. *)
Theorem header_by_prefix lines l rest :
  input_lines lines = l :: rest →
  (is_header l = true ↔ ∃ w r, l = w +:+ r ∧ Str.lower w = "*vertices")
  ∧ (spec_is_header l = true →
     Str.lstrip Str.isspace l = l → is_header l = true)
  ∧ (is_header l = false →
     parse_pajek_communities lines = parse_pajek_communities (Lines []))
  ∧ (∀ N, declares l N →
     parse_pajek_communities lines =
     match read_assignments (Z.to_nat N) 0 rest [] with
     | Ok (d, rest') => parse_loop (Some d) rest'
     | Raise e => Raise e
     end).
Proof.
  intros Hlines. split_and!.
  - apply prefix_lower.
  - unfold spec_is_header. intros Hspec Hl.
    destruct l as [|c s]; [done|]. simpl in Hl.
    destruct (Str.isspace c) eqn:Hc.
    { assert (String.length (Str.lstrip Str.isspace s) <= String.length s)%nat
        as Hlen.
      { clear. induction s as [|x s IH]; simpl; [done|].
        destruct (Str.isspace x); simpl; lia. }
      rewrite Hl in Hlen. simpl in Hlen. lia. }
    unfold Str.split in Hspec. simpl in Hspec. rewrite Hc in Hspec.
    destruct (split_from_first s (String c "")) as (u & v & ts & -> & Hs);
      [done|].
    rewrite app_empty_l, Hs in Hspec. apply String.eqb_eq in Hspec.
    apply prefix_lower. exists (String c u), v. by rewrite app_String.
  - intros Hh. unfold parse_pajek_communities.
    by rewrite Hlines, parse_loop_no_header.
  - intros N HN. unfold parse_pajek_communities. rewrite Hlines.
    by apply parse_loop_section.
Qed.

Lemma header_by_prefix_witness :
  parse_pajek_communities (Lines ["2"; "*Vertices 1"; "1"])
  = parse_pajek_communities (Lines []).
Proof.
  destruct (header_by_prefix (Lines ["2"; "*Vertices 1"; "1"]) "2"
              ["*Vertices 1"; "1"] eq_refl) as (_ & _ & H & _).
  exact (H eq_refl).
Defined.

(** * Further properties *)

(** ** The generator on arbitrary lists *)

(** X1: The generator never raises, whatever lists of integers it is given:
    it yields the header and one line per vertex counted. *)
Theorem generate_never_raises P :
  ∃ lines, generate_pajek_communities P = (lines, None)
           ∧ length lines = S (nnodes P).
Proof.
  destruct (generate_loop_total (nnodes P) P (length_join_nnodes P))
    as [(body & Hg & Hb) _].
  eexists. rewrite generate_unfold, Hg. split; [done|]. simpl. by rewrite Hb.
Qed.

Lemma py_min_Permutation l l' : l ≡ₚ l' → py_min l = py_min l'.
Proof.
  intros Hp. destruct (py_min l) as [m|] eqn:Hm, (py_min l') as [m'|] eqn:Hm'.
  - f_equal. apply Z.le_antisymm.
    + apply (py_min_le l m m' Hm). rewrite Hp. by eapply py_min_elem_of.
    + apply (py_min_le l' m' m Hm'). rewrite <- Hp. by eapply py_min_elem_of.
  - destruct l' as [|x l']; [|done]. apply Permutation_nil_r in Hp.
    by rewrite Hp in Hm.
  - destruct l as [|x l]; [|done]. symmetry in Hp.
    apply Permutation_nil_r in Hp. by rewrite Hp in Hm'.
  - done.
Qed.

Lemma minima_cons c cl :
  minima (c :: cl)
  = match py_min c with Some m => m :: minima cl | None => minima cl end.
Proof. unfold minima. rewrite filter_cons. by destruct c. Qed.

Lemma minima_Permutation (cl cl' : list (list Z)) :
  Forall2 (≡ₚ) cl cl' → minima cl = minima cl'.
Proof.
  induction 1 as [|c c' cl cl' Hc _ IH]; [done|].
  by rewrite !minima_cons, (py_min_Permutation _ _ Hc), IH.
Qed.

Lemma list_find_index_Permutation (v : Z) (cl cl' : list (list Z)) :
  Forall2 (≡ₚ) cl cl' →
  fst <$> list_find (λ c, v ∈ c) cl = fst <$> list_find (λ c, v ∈ c) cl'.
Proof.
  induction 1 as [|c c' cl cl' Hc _ IH]; [done|]. simpl.
  destruct (decide (v ∈ c)) as [Hin|Hin]; rewrite Hc in Hin.
  - by rewrite decide_True.
  - rewrite decide_False by done.
    destruct (list_find _ cl) as [[j x]|], (list_find _ cl') as [[j' x']|];
      simplify_eq/=; done.
Qed.

Lemma find_owner_Permutation (cl cl' : list (list Z)) :
  Forall2 (≡ₚ) cl cl' → find_owner cl = find_owner cl'.
Proof.
  intros Hcl. unfold find_owner. rewrite (minima_Permutation _ _ Hcl).
  destruct (py_min (minima cl')) as [v|]; [|done].
  pose proof (list_find_index_Permutation v _ _ Hcl) as Hi.
  destruct (list_find _ cl) as [[j c]|], (list_find _ cl') as [[j' c']|];
    simplify_eq/=; done.
Qed.

Lemma list_remove_spec v c :
  match list_remove v c with
  | Some r => c ≡ₚ v :: r
  | None => v ∉ c
  end.
Proof.
  induction c as [|y c IH]; simpl; [apply not_elem_of_nil|].
  destruct (decide (v = y)) as [->|Hne]; [done|].
  destruct (list_remove v c) as [r|]; simpl.
  - rewrite IH. apply perm_swap.
  - rewrite not_elem_of_cons. by split.
Qed.

Lemma remove_vertex_Permutation j v (cl cl' : list (list Z)) :
  Forall2 (≡ₚ) cl cl' →
  match remove_vertex j v cl, remove_vertex j v cl' with
  | Ok a, Ok b => Forall2 (≡ₚ) a b
  | Raise e, Raise e' => e = e'
  | _, _ => False
  end.
Proof.
  intros Hcl. unfold remove_vertex.
  destruct (cl !! j) as [c|] eqn:Hj.
  - destruct (Forall2_lookup_l _ _ _ _ _ Hcl Hj) as (c' & -> & Hc).
    pose proof (list_remove_spec v c) as Hr.
    pose proof (list_remove_spec v c') as Hr'.
    destruct (list_remove v c) as [r|], (list_remove v c') as [r'|].
    + apply Forall2_insert; [done|].
      rewrite Hc, Hr' in Hr. by apply (inj (v ::.)) in Hr.
    + destruct Hr'. rewrite <- Hc, Hr. apply elem_of_cons. by left.
    + destruct Hr. rewrite Hc, Hr'. apply elem_of_cons. by left.
    + done.
  - destruct (cl' !! j) as [c'|] eqn:Hj'; [|done].
    destruct (Forall2_lookup_r _ _ _ _ _ Hcl Hj') as (c & Hc & _).
    by rewrite Hc in Hj.
Qed.

Lemma generate_loop_Permutation n : ∀ cl cl' : list (list Z),
  Forall2 (≡ₚ) cl cl' → generate_loop n cl = generate_loop n cl'.
Proof.
  induction n as [|n IH]; intros cl cl' Hcl; [done|]. simpl.
  rewrite (find_owner_Permutation _ _ Hcl).
  destruct (find_owner cl') as [[v j]|e]; [|done].
  pose proof (remove_vertex_Permutation j v _ _ Hcl) as Hr.
  destruct (remove_vertex j v cl) as [a|e], (remove_vertex j v cl') as [b|e'];
    try done; [|by subst].
  by rewrite (IH a b Hr).
Qed.

(** X2: The generator yields the same lines, and ends the same way, when the
    members of each Community are stored in another order. *)
Theorem generate_storage_order_irrelevant (P P' : Partition) :
  Forall2 (≡ₚ) P P' →
  generate_pajek_communities P = generate_pajek_communities P'.
Proof.
  intros HP. rewrite !generate_unfold.
  assert (nnodes P = nnodes P') as ->.
  { unfold nnodes. f_equal. induction HP as [|c c' P P' Hc _ IH]; [done|].
    by rewrite !fmap_cons, Hc, IH. }
  by rewrite (generate_loop_Permutation _ _ _ HP).
Qed.

Lemma generate_storage_order_irrelevant_witness :
  generate_pajek_communities [[3; 0]; [1; 2]]
  = generate_pajek_communities [[0; 3]; [2; 1]].
Proof.
  apply generate_storage_order_irrelevant.
  repeat constructor; apply perm_swap.
Defined.

Lemma StronglySorted_lt_NoDup (vs : list Z) : StronglySorted Z.lt vs → NoDup vs.
Proof.
  induction 1 as [|v vs _ IH Hv]; constructor; [|done].
  intros Hin. rewrite Forall_forall in Hv. specialize (Hv v Hin). lia.
Qed.

Lemma generate_loop_ascending vs : ∀ cl,
  StronglySorted Z.lt vs →
  mjoin cl ≡ₚ vs →
  ∃ owners : list nat,
    generate_loop (length vs) cl = (line_of <$> owners, None)
    ∧ length owners = length vs
    ∧ ∀ (i : nat) v j c,
        vs !! i = Some v → cl !! j = Some c → v ∈ c → owners !! i = Some j.
Proof.
  induction vs as [|k vs IH]; intros cl Hsort Hperm.
  - exists []. split_and!; done.
  - pose proof (StronglySorted_lt_NoDup _ Hsort) as Hnd.
    apply StronglySorted_cons in Hsort as [Hk Hsort].
    rewrite Forall_forall in Hk.
    assert (mjoin cl ≠ []) as Hne.
    { intros Heq. rewrite Heq in Hperm. by apply Permutation_nil_cons in Hperm. }
    destruct (round_ok cl Hne)
      as (v & j0 & c0 & c0' & _ & Hf & Hr & Hmin & Hfind & Hp).
    apply list_find_Some in Hfind as (Hj0 & Hvc0 & _).
    assert (v = k) as ->.
    { assert (k <= v).
      { assert (v ∈ mjoin cl) as Hv.
        { apply list_elem_of_join. exists c0. split; [done|].
          by eapply list_elem_of_lookup_2. }
        rewrite Hperm in Hv.
        apply elem_of_cons in Hv as [->|Hv]; [lia|]. specialize (Hk v Hv). lia. }
      assert (v <= k); [|lia].
      apply Hmin. rewrite Hperm. apply elem_of_cons. by left. }
    pose proof (join_insert_Permutation cl j0 c0 c0' k Hj0 Hp) as Hcl.
    assert (NoDup (mjoin cl)) as Hndcl by by rewrite Hperm.
    assert (mjoin (<[j0:=c0']> cl) ≡ₚ vs) as Hperm'.
    { rewrite Hcl in Hperm. by apply (inj (k ::.)) in Hperm. }
    destruct (IH _ Hsort Hperm') as (owners & Hg & Hb & Hown).
    exists (j0 :: owners). split_and!.
    + simpl. by rewrite Hf, Hr, Hg.
    + simpl. by rewrite Hb.
    + intros [|i] v j c Hi Hj Hin; simpl in Hi.
      * injection Hi as <-. simpl.
        by rewrite (owner_unique cl j j0 c c0 k).
      * assert (v ≠ k) as Hvk.
        { apply list_elem_of_lookup_2 in Hi. specialize (Hk v Hi). lia. }
        simpl. destruct (decide (j = j0)) as [->|Hjne].
        -- rewrite Hj0 in Hj. injection Hj as <-.
           apply (Hown i v j0 c0'); [done| |].
           ++ apply list_lookup_insert_eq. by eapply lookup_lt_Some.
           ++ rewrite Hp in Hin. by apply elem_of_cons in Hin as [?|Hin].
        -- apply (Hown i v j c); [done| |done].
           by rewrite list_lookup_insert_ne.
Qed.

(** X3: The vertices need not be [0, ..., N-1]: when no vertex occurs twice,
    the generator goes through the vertices in increasing order, and the
    line at position [i] is the 1-based position of the Community that
    holds the vertex of rank [i]. *)
Theorem generate_ascending_vertices (P : Partition) vs :
  StronglySorted Z.lt vs →
  mjoin P ≡ₚ vs →
  ∃ owners : list nat,
    generate_pajek_communities P
    = (("*Vertices " +:+ Str.of_int (Z.of_nat (length vs)))
         :: (line_of <$> owners), None)
    ∧ length owners = length vs
    ∧ ∀ (i : nat) v j c,
        vs !! i = Some v → P !! j = Some c → v ∈ c → owners !! i = Some j.
Proof.
  intros Hsort Hperm.
  destruct (generate_loop_ascending vs P Hsort Hperm) as (owners & Hg & Hrest).
  exists owners. split; [|done].
  assert (nnodes P = length vs) as Hn.
  { by rewrite <- length_join_nnodes, Hperm. }
  by rewrite generate_unfold, Hn, Hg.
Qed.

Lemma generate_ascending_vertices_witness :
  ∃ owners : list nat,
    generate_pajek_communities [[40; 7]; [12]]
    = ("*Vertices 3" :: (line_of <$> owners), None)
    ∧ length owners = 3%nat
    ∧ ∀ (i : nat) v j c,
        [7; 12; 40] !! i = Some v → [[40; 7]; [12]] !! j = Some c → v ∈ c →
        owners !! i = Some j.
Proof.
  apply (generate_ascending_vertices [[40; 7]; [12]] [7; 12; 40]).
  - repeat constructor.
  - apply (bool_decide_unpack _). vm_compute. reflexivity.
Defined.

(** ** Renumbering the vertices *)

Section increasing.
Variable f : Z → Z.
Hypothesis f_increasing : ∀ x y, x < y → f x < f y.

Lemma increasing_inj x y : f x = f y → x = y.
Proof.
  intros Hf. destruct (Z.lt_trichotomy x y) as [H|[H|H]]; [|done|];
    apply f_increasing in H; lia.
Qed.

Lemma increasing_min x y : f (Z.min x y) = Z.min (f x) (f y).
Proof.
  destruct (Z.lt_trichotomy x y) as [H|[->|H]].
  - pose proof (f_increasing _ _ H). by rewrite !Z.min_l by lia.
  - by rewrite !Z.min_id.
  - pose proof (f_increasing _ _ H). by rewrite !Z.min_r by lia.
Qed.

Lemma py_min_increasing l : py_min (f <$> l) = f <$> py_min l.
Proof.
  destruct l as [|a l]; [done|]. simpl. f_equal.
  revert a. induction l as [|b l IH]; intros a; simpl; [done|].
  by rewrite <- increasing_min, IH.
Qed.

Lemma renumber_cons c (cl : list (list Z)) :
  renumber f (c :: cl) = (f <$> c) :: renumber f cl.
Proof. done. Qed.

Lemma minima_increasing (cl : list (list Z)) :
  minima (renumber f cl) = f <$> minima cl.
Proof.
  induction cl as [|c cl IH]; [done|].
  rewrite renumber_cons, !minima_cons, py_min_increasing, IH.
  by destruct (py_min c).
Qed.

Lemma elem_of_increasing v (c : list Z) : f v ∈ f <$> c ↔ v ∈ c.
Proof.
  rewrite list_elem_of_fmap. split.
  - by intros (y & ->%increasing_inj & Hy).
  - intros Hv. by exists v.
Qed.

Lemma list_find_increasing v (cl : list (list Z)) :
  fst <$> list_find (λ c, f v ∈ c) (renumber f cl)
  = fst <$> list_find (λ c, v ∈ c) cl.
Proof.
  induction cl as [|c cl IH]; [done|]. rewrite renumber_cons. simpl.
  destruct (decide (v ∈ c)) as [Hin|Hin].
  - by rewrite decide_True by by apply elem_of_increasing.
  - rewrite decide_False by by rewrite elem_of_increasing.
    destruct (list_find _ (renumber f cl)) as [[j x]|],
      (list_find _ cl) as [[j' x']|]; simplify_eq/=; done.
Qed.

Lemma find_owner_increasing (cl : list (list Z)) :
  find_owner (renumber f cl)
  = match find_owner cl with
    | Ok (v, j) => Ok (f v, j)
    | Raise e => Raise e
    end.
Proof.
  unfold find_owner. rewrite minima_increasing, py_min_increasing.
  destruct (py_min (minima cl)) as [v|]; [|done].
  change (f <$> Some v) with (Some (f v)). cbv beta iota.
  pose proof (list_find_increasing v cl) as Hi.
  destruct (list_find (λ c, f v ∈ c) (renumber f cl)) as [[j x]|],
    (list_find (λ c, v ∈ c) cl) as [[j' x']|]; simplify_eq/=; done.
Qed.

Lemma list_remove_increasing v (c : list Z) :
  list_remove (f v) (f <$> c) = (λ r : list Z, f <$> r) <$> list_remove v c.
Proof.
  induction c as [|y c IH]; [done|]. rewrite fmap_cons. cbn [list_remove].
  destruct (decide (v = y)) as [->|Hne].
  - by rewrite decide_True.
  - rewrite decide_False by (intros ?%increasing_inj; done).
    rewrite IH. by destruct (list_remove v c).
Qed.

Lemma remove_vertex_increasing j v (cl : list (list Z)) :
  remove_vertex j (f v) (renumber f cl)
  = match remove_vertex j v cl with
    | Ok cl' => Ok (renumber f cl')
    | Raise e => Raise e
    end.
Proof.
  unfold remove_vertex, renumber. rewrite list_lookup_fmap.
  destruct (cl !! j) as [c|]; [|done]. simpl.
  rewrite list_remove_increasing.
  destruct (list_remove v c) as [r|]; [|done]. simpl.
  by rewrite list_fmap_insert.
Qed.

Lemma generate_loop_increasing n : ∀ cl : list (list Z),
  generate_loop n (renumber f cl) = generate_loop n cl.
Proof.
  induction n as [|n IH]; intros cl; [done|]. simpl.
  rewrite find_owner_increasing.
  destruct (find_owner cl) as [[v j]|e]; [|done].
  rewrite remove_vertex_increasing.
  destruct (remove_vertex j v cl) as [cl'|e]; [|done].
  by rewrite IH.
Qed.

(** X4: Only the order of the vertex numbers counts: the generator yields
    the same lines when every vertex [v] is renamed [f v], for an
    increasing [f]. *)
Theorem generate_renumbering (P : Partition) :
  generate_pajek_communities (renumber f P) = generate_pajek_communities P.
Proof.
  rewrite !generate_unfold.
  assert (nnodes (renumber f P) = nnodes P) as ->.
  { unfold nnodes, renumber. rewrite <- list_fmap_compose. f_equal.
    apply list_fmap_ext. intros _ c _. simpl. by rewrite length_fmap. }
  by rewrite generate_loop_increasing.
Qed.
End increasing.

Lemma generate_renumbering_witness :
  generate_pajek_communities [[1; 3]; [2; 4]]
  = generate_pajek_communities [[0; 2]; [1; 3]].
Proof.
  assert (∀ x y, x < y → x + 1 < y + 1) as H by (intros; lia).
  exact (generate_renumbering (λ x, x + 1) H [[0; 2]; [1; 3]]).
Defined.

(** ** What the parser returns *)

Lemma py_min_snoc vs m v :
  py_min vs = Some m → py_min (vs ++ [v]) = Some (Z.min m v).
Proof.
  destruct vs as [|x vs]; [done|]. simpl. intros [= <-].
  by rewrite foldl_app.
Qed.

Lemma values_cons k vs (d : dict) : values ((k, vs) :: d) = vs :: values d.
Proof. done. Qed.

Lemma setdefault_append_join k v (d : dict) :
  mjoin (values (setdefault_append k v d)) ≡ₚ mjoin (values d) ++ [v].
Proof.
  induction d as [|[k' vs] d IH]; [done|]. cbn [setdefault_append].
  destruct (Z.eqb k' k); rewrite !values_cons; simpl.
  - rewrite <- !app_assoc. f_equiv. apply Permutation_app_comm.
  - by rewrite IH, app_assoc.
Qed.

Lemma setdefault_append_nonempty k v (d : dict) :
  Forall (λ c, c ≠ []) (values d) →
  Forall (λ c, c ≠ []) (values (setdefault_append k v d)).
Proof.
  induction d as [|[k' vs] d IH]; [by repeat constructor|].
  cbn [setdefault_append]. rewrite values_cons.
  intros [Hvs Hd]%Forall_cons. destruct (Z.eqb k' k); rewrite values_cons.
  - constructor; [by destruct vs|done].
  - constructor; [done|by apply IH].
Qed.

Lemma setdefault_append_sorted k v (d : dict) :
  Forall (λ c, ∀ x, x ∈ c → x < v) (values d) →
  Forall (StronglySorted Z.lt) (values d) →
  Forall (StronglySorted Z.lt) (values (setdefault_append k v d)).
Proof.
  induction d as [|[k' vs] d IH]; [by repeat constructor|].
  cbn [setdefault_append]. rewrite values_cons.
  intros [Hlt Hltd]%Forall_cons [Hvs Hd]%Forall_cons.
  destruct (Z.eqb k' k); rewrite values_cons.
  - constructor; [|done]. apply StronglySorted_app_2; [|done|repeat constructor].
    intros x1 x2 Hx1 ->%list_elem_of_singleton. by apply Hlt.
  - constructor; [done|by apply IH].
Qed.

Lemma before_snoc_r c0 m0 vs v :
  py_min c0 = Some m0 → m0 < v → before c0 vs → before c0 (vs ++ [v]).
Proof.
  unfold before. intros -> Hv. destruct (py_min vs) as [m|] eqn:Hm; [|done].
  rewrite (py_min_snoc _ _ v Hm). lia.
Qed.

Lemma before_snoc_l vs v c :
  (∀ x, x ∈ vs → x < v) → before vs c → before (vs ++ [v]) c.
Proof.
  unfold before. intros Hlt. destruct (py_min vs) as [m|] eqn:Hm; [|done].
  rewrite (py_min_snoc _ _ v Hm).
  pose proof (Hlt m (py_min_elem_of _ _ Hm)).
  by rewrite Z.min_l by lia.
Qed.

Lemma setdefault_append_before_all c0 m0 k v (d : dict) :
  py_min c0 = Some m0 → m0 < v →
  Forall (before c0) (values d) →
  Forall (before c0) (values (setdefault_append k v d)).
Proof.
  intros Hm0 Hv. induction d as [|[k' vs] d IH].
  - intros _. repeat constructor. unfold before. by rewrite Hm0.
  - cbn [setdefault_append]. rewrite values_cons.
    intros [Hvs Hd]%Forall_cons. destruct (Z.eqb k' k); rewrite values_cons.
    + constructor; [by eapply before_snoc_r|done].
    + constructor; [done|by apply IH].
Qed.

Lemma setdefault_append_before k v (d : dict) :
  Forall (λ c, c ≠ [] ∧ ∀ x, x ∈ c → x < v) (values d) →
  StronglySorted before (values d) →
  StronglySorted before (values (setdefault_append k v d)).
Proof.
  induction d as [|[k' vs] d IH]; [by repeat constructor|].
  cbn [setdefault_append]. rewrite values_cons.
  intros [[Hne Hlt] Hd]%Forall_cons [Hbef Hsort]%StronglySorted_cons.
  destruct (Z.eqb k' k); rewrite values_cons; apply StronglySorted_cons.
  - split; [|done]. eapply Forall_impl; [exact Hbef|].
    intros c Hc. by apply before_snoc_l.
  - split; [|by apply IH].
    destruct (py_min_is_Some vs Hne) as [m0 Hm0].
    apply (setdefault_append_before_all vs m0); [done| |done].
    apply Hlt. by eapply py_min_elem_of.
Qed.

Lemma dict_inv_nil : dict_inv 0 [].
Proof. split_and!; by repeat constructor. Qed.

Lemma dict_inv_step k v d :
  dict_inv v d → dict_inv (v + 1) (setdefault_append k v d).
Proof.
  intros (Hv & Hperm & Hne & Hbef & Hsort).
  assert (Forall (λ c, ∀ x, x ∈ c → x < v) (values d)) as Hlt.
  { apply Forall_forall. intros c Hc x Hx.
    assert (x ∈ mjoin (values d)) as Hin
      by (apply list_elem_of_join; by exists c).
    rewrite Hperm in Hin. apply elem_of_seqZ in Hin. lia. }
  split_and!.
  - lia.
  - rewrite setdefault_append_join, Hperm, (seqZ_app 0 v 1) by lia.
    by rewrite Z.add_0_l.
  - by apply setdefault_append_nonempty.
  - apply setdefault_append_before; [|done].
    rewrite Forall_forall in Hne, Hlt. apply Forall_forall.
    intros c Hc. split; [by apply Hne|by apply Hlt].
  - by apply setdefault_append_sorted.
Qed.

Lemma read_assignments_inv n : ∀ v ls d d' rest,
  read_assignments n v ls d = Ok (d', rest) →
  dict_inv v d → dict_inv (v + Z.of_nat n) d'.
Proof.
  induction n as [|n IH]; intros v ls d d' rest; cbn [read_assignments].
  - intros [= <- _]. by rewrite Z.add_0_r.
  - destruct ls as [|l ls]; [done|]. destruct (Str.int l) as [k|]; [|done].
    intros Hr Hd. apply IH in Hr; [|by apply dict_inv_step].
    by replace (v + Z.of_nat (S n)) with (v + 1 + Z.of_nat n) by lia.
Qed.

Lemma assign_inv L : ∀ v d,
  dict_inv v d → dict_inv (v + Z.of_nat (length L)) (assign v L d).
Proof.
  induction L as [|k L IH]; intros v d Hd; cbn [assign length].
  - by rewrite Z.add_0_r.
  - replace (v + Z.of_nat (S (length L)))
      with (v + 1 + Z.of_nat (length L)) by lia.
    by apply IH, dict_inv_step.
Qed.

Lemma dict_inv_canonical v d : dict_inv v d → canonical (values d).
Proof.
  intros (Hv & Hperm & Hrest). split; [|done]. unfold I1.
  assert (nnodes (values d) = Z.to_nat v) as ->.
  { by rewrite <- length_join_nnodes, Hperm, length_seqZ. }
  by rewrite Z2Nat.id.
Qed.

Lemma parse_loop_canonical lines : ∀ communities Q,
  (∀ d, communities = Some d → canonical (values d)) →
  parse_loop communities lines = Ok Q → canonical Q.
Proof.
  remember (length lines) as n eqn:Hn. revert lines Hn.
  induction n as [n IH] using lt_wf_ind. intros lines -> communities Q Hc.
  assert (finish communities = Ok Q → canonical Q) as Hfin.
  { destruct communities as [d|]; [|done]. intros [= <-]. by apply Hc. }
  destruct lines as [|l rest]; [by rewrite parse_loop_nil|].
  rewrite parse_loop_cons. destruct (is_header l); [|done].
  destruct (Str.split l) as [|t [|nnodes [|]]]; try done.
  destruct (Str.int nnodes) as [N|]; [|done].
  destruct (read_assignments (Z.to_nat N) 0 rest []) as [[d rest']|e] eqn:Hr;
    [|done].
  apply (IH (length rest')); [|done|].
  - apply read_assignments_shorter in Hr. simpl. lia.
  - intros d0 [= <-]. eapply dict_inv_canonical, read_assignments_inv; [done|].
    apply dict_inv_nil.
Qed.

(** X5: Whatever the input, a Partition that the parser returns satisfies
    I1, has no empty Community, lists its Communities by increasing least
    vertex and the members of each in increasing order. *)
Theorem parse_result_canonical lines Q :
  parse_pajek_communities lines = Ok Q → canonical Q.
Proof. apply parse_loop_canonical. done. Qed.

Lemma parse_result_canonical_witness : canonical [[0; 2]; [1; 3]].
Proof.
  apply (parse_result_canonical (Lines ["*Vertices 4"; "3"; "1"; "3"; "1"])).
  reflexivity.
Defined.

(** ** Generating what was parsed, parsing what was generated *)

Lemma generated_lines_clean (owners : list nat) :
  Str.rstrip Str.is_newline <$> (line_of <$> owners) = line_of <$> owners.
Proof.
  rewrite <- list_fmap_compose. apply Forall_fmap_ext_1, Forall_forall.
  intros j _. apply rstrip_newline_of_int. lia.
Qed.

Lemma generated_lines_labelled (owners : list nat) :
  labelled (line_of <$> owners) ((λ j : nat, Z.of_nat j + 1) <$> owners).
Proof.
  apply Forall2_fmap, Forall_Forall2_diag, Forall_forall.
  intros j _. apply int_of_int. lia.
Qed.

Lemma members_self c k :
  NoDup c → (∀ x, x ∈ c → 0 <= x < Z.of_nat k) → StronglySorted Z.lt c →
  members c k = c.
Proof.
  intros Hnd Hrange Hsort. apply (StronglySorted_unique_strong Z.lt).
  - intros x1 x2 _ _ ??. lia.
  - apply members_sorted.
  - done.
  - by apply members_Permutation.
Qed.

Lemma parse_generated_canonical Q :
  canonical Q →
  ∃ lines, generate_pajek_communities Q = (lines, None)
           ∧ parse_pajek_communities (Lines lines) = Ok Q.
Proof.
  intros (HI & Hne & Hsort & Hinc). pose proof HI as HI'. unfold I1 in HI'.
  assert (NoDup (mjoin Q)) as Hnd by (rewrite HI'; apply NoDup_seqZ).
  assert (∀ c, c ∈ Q → ∀ x, x ∈ c → 0 <= x < Z.of_nat (nnodes Q)) as Hrange.
  { intros c Hc x Hx.
    assert (x ∈ mjoin Q) as Hin by (apply list_elem_of_join; by exists c).
    rewrite HI' in Hin. apply elem_of_seqZ in Hin. lia. }
  destruct (generate_loop_owner (nnodes Q) 0 Q HI')
    as (owners & Hg & Hlen & Hown).
  set (L := (λ j : nat, Z.of_nat j + 1) <$> owners).
  exists (("*Vertices " +:+ Str.of_int (Z.of_nat (nnodes Q)))
            :: (line_of <$> owners)).
  split; [by rewrite generate_unfold, Hg|].
  unfold parse_pajek_communities, input_lines.
  rewrite fmap_cons, header_clean, generated_lines_clean by lia.
  rewrite (parse_loop_section _ _ (Z.of_nat (nnodes Q)))
    by (apply header_declares; lia).
  pose proof (read_assignments_exact _ _ 0 [] []
                (generated_lines_labelled owners)) as Hr.
  rewrite app_nil_r, length_fmap, Hlen in Hr.
  rewrite Nat2Z.id, Hr, parse_loop_nil. simpl. f_equal.
  pose proof (assign_dict_of L []) as Ha.
  change (assign 0 L [] = dict_of L) in Ha. fold L. rewrite Ha.
  rewrite <- (take_ge L (nnodes Q)) by (unfold L; rewrite length_fmap; lia).
  rewrite (dict_of_owners Q L HI Hsort); [| | |done].
  - rewrite values_entries.
    + rewrite <- (list_fmap_id Q) at 2.
      apply Forall_fmap_ext_1, Forall_forall. intros c Hc.
      apply members_self; [by eapply NoDup_join_elem_of|by apply Hrange|].
      rewrite Forall_forall in Hinc. by apply Hinc.
    + apply Forall_forall. intros c Hc Hnil.
      rewrite Forall_forall in Hne. specialize (Hne c Hc).
      destruct c as [|x c]; [done|].
      assert (x ∈ x :: c) as Hx by (apply elem_of_cons; by left).
      pose proof (Hrange _ Hc x Hx).
      pose proof (proj1 (members_nil _ _) Hnil x Hx). lia.
  - unfold L. by rewrite length_fmap.
  - intros i j c Hi Hj Hin. unfold L.
    by rewrite list_lookup_fmap, (Hown i j c).
Qed.

(** X6: A Partition that the parser returned is written and read back
    unchanged: the generator does not raise on it, and parsing the lines
    it yields returns the same Partition. *)
Theorem parse_generate_parse lines Q :
  parse_pajek_communities lines = Ok Q →
  ∃ glines, generate_pajek_communities Q = (glines, None)
            ∧ parse_pajek_communities (Lines glines) = Ok Q.
Proof.
  intros HQ. apply parse_generated_canonical.
  by apply (parse_loop_canonical (input_lines lines) None).
Qed.

Lemma parse_generate_parse_witness :
  ∃ glines, generate_pajek_communities [[0; 2]; [1; 3]] = (glines, None)
            ∧ parse_pajek_communities (Lines glines) = Ok [[0; 2]; [1; 3]].
Proof.
  apply (parse_generate_parse (Lines ["*Vertices 4"; "7"; "-1"; "7"; "-1"])).
  reflexivity.
Defined.

Lemma index_of_lookup x fs : x ∈ fs → fs !! index_of x fs = Some x.
Proof.
  induction fs as [|y fs IH]; [by intros ?%elem_of_nil|]. simpl.
  destruct (decide (x = y)) as [->|Hne]; [done|].
  intros [?|Hin]%elem_of_cons; [done|by apply IH].
Qed.

Lemma elem_of_positions_from L : ∀ b (n : nat) k,
  L !! n = Some k → b + Z.of_nat n ∈ positions_from b k L.
Proof.
  induction L as [|x L IH]; intros b n k Hn; [done|].
  destruct n as [|n]; simpl in *.
  - injection Hn as ->. rewrite decide_True by done.
    rewrite Z.add_0_r. apply elem_of_cons. by left.
  - replace (b + Z.of_nat (S n)) with (b + 1 + Z.of_nat n) by lia.
    destruct (decide (x = k)); [apply elem_of_cons; right|];
      by apply (IH (b + 1)).
Qed.

Lemma generate_grouped L :
  generate_pajek_communities (grouped L)
  = (("*Vertices " +:+ Str.of_int (Z.of_nat (length L)))
       :: ((λ x, line_of (index_of x (first_seen L))) <$> L), None).
Proof.
  pose proof (assign_inv L 0 [] dict_inv_nil) as Hinv.
  apply dict_inv_canonical in Hinv as (HI & _).
  rewrite values_assign in HI.
  assert (nnodes (grouped L) = length L) as Hn.
  { pose proof (assign_inv L 0 [] dict_inv_nil) as (_ & Hp & _).
    rewrite <- length_join_nnodes, <- values_assign, Hp, length_seqZ. lia. }
  unfold I1 in HI. rewrite Hn in HI.
  destruct (generate_loop_owner (length L) 0 (grouped L) HI)
    as (owners & Hg & Hlen & Hown).
  assert (owners = (λ x, index_of x (first_seen L)) <$> L) as ->;
    [|by rewrite generate_unfold, Hn, Hg, <- list_fmap_compose].
  apply list_eq. intros i. rewrite list_lookup_fmap.
  destruct (L !! i) as [x|] eqn:Hi; simpl.
  - apply (Hown i _ (positions x L)).
    + by eapply lookup_lt_Some.
    + unfold grouped. rewrite list_lookup_fmap, index_of_lookup; [done|].
      apply elem_of_first_seen. by eapply list_elem_of_lookup_2.
    + by apply (elem_of_positions_from L 0 i x).
  - apply lookup_ge_None. apply lookup_ge_None in Hi. lia.
Qed.

(** X7: Reading a section and generating the result renumbers the labels:
    the line of each vertex holds the 1-based rank of its label among the
    distinct labels in first-appearance order. *)
Theorem generate_parsed_renumbers lines l N body labels :
  input_lines lines = l :: body →
  declares l N →
  Z.of_nat (length body) = N →
  labelled body labels →
  ∃ Q, parse_pajek_communities lines = Ok Q
       ∧ generate_pajek_communities Q
         = (("*Vertices " +:+ Str.of_int N)
              :: ((λ x, Str.of_int (Z.of_nat (index_of x (first_seen labels)) + 1))
                    <$> labels), None).
Proof.
  intros Hl HN Hlen Hb. exists (grouped labels). split.
  - unfold parse_pajek_communities.
    rewrite Hl, (parse_loop_section _ _ N) by done.
    replace (Z.to_nat N) with (length body) by lia.
    pose proof (read_assignments_exact _ _ 0 [] [] Hb) as Hr.
    rewrite app_nil_r in Hr. by rewrite Hr, parse_loop_nil, <- values_assign.
  - rewrite generate_grouped. apply Forall2_length in Hb.
    by rewrite <- Hb, Hlen.
Qed.

Lemma generate_parsed_renumbers_witness :
  ∃ Q, parse_pajek_communities (Lines ["*Vertices 4"; "3"; "1"; "3"; "1"])
       = Ok Q
       ∧ generate_pajek_communities Q
         = (["*Vertices 4"; "1"; "2"; "1"; "2"], None).
Proof.
  apply (generate_parsed_renumbers _ "*Vertices 4" 4 ["3"; "1"; "3"; "1"]
           [3; 1; 3; 1]).
  - reflexivity.
  - split; [reflexivity|]. by exists "*Vertices", "4".
  - reflexivity.
  - repeat constructor.
Defined.

Lemma index_of_seqZ (m : nat) : ∀ b x,
  x ∈ seqZ b (Z.of_nat m) → Z.of_nat (index_of x (seqZ b (Z.of_nat m))) = x - b.
Proof.
  induction m as [|m IH]; intros b x Hx; [by apply elem_of_nil in Hx|].
  rewrite seqZ_cons in Hx |- * by lia.
  replace (Z.pred (Z.of_nat (S m))) with (Z.of_nat m) in * by lia.
  cbn [index_of]. destruct (decide (x = b)) as [->|Hne]; [lia|].
  apply elem_of_cons in Hx as [?|Hx]; [done|].
  rewrite Nat2Z.inj_succ, (IH _ _ Hx). lia.
Qed.

(** X8: A file whose labels are numbered 1, 2, ... in the order of their
    first appearance, and written as [str] writes integers, is
    reproduced line for line: the generator, on the Partition parsed from
    such lines, yields the same lines. *)
Theorem canonical_lines_reproduced (L : list Z) lines :
  first_seen L = seqZ 1 (Z.of_nat (length (first_seen L))) →
  lines = ("*Vertices " +:+ Str.of_int (Z.of_nat (length L)))
            :: (Str.of_int <$> L) →
  ∃ Q, parse_pajek_communities (Lines lines) = Ok Q
       ∧ generate_pajek_communities Q = (lines, None).
Proof.
  intros Hfs ->.
  assert (∀ x, x ∈ L → 1 <= x) as Hpos.
  { intros x Hx. apply elem_of_first_seen in Hx. rewrite Hfs in Hx.
    apply elem_of_seqZ in Hx. lia. }
  exists (grouped L). split.
  - unfold parse_pajek_communities, input_lines.
    rewrite fmap_cons, header_clean by lia.
    assert (Str.rstrip Str.is_newline <$> (Str.of_int <$> L)
            = Str.of_int <$> L) as ->.
    { rewrite <- list_fmap_compose. apply Forall_fmap_ext_1, Forall_forall.
      intros x Hx. apply rstrip_newline_of_int. specialize (Hpos x Hx). lia. }
    rewrite (parse_loop_section _ _ (Z.of_nat (length L)))
      by (apply header_declares; lia).
    assert (labelled (Str.of_int <$> L) L) as Hlab.
    { apply Forall2_fmap_l, Forall_Forall2_diag, Forall_forall.
      intros x Hx. apply int_of_int. specialize (Hpos x Hx). lia. }
    pose proof (read_assignments_exact _ _ 0 [] [] Hlab) as Hr.
    rewrite app_nil_r, length_fmap in Hr.
    by rewrite Nat2Z.id, Hr, parse_loop_nil, <- values_assign.
  - rewrite generate_grouped. do 2 f_equal.
    apply Forall_fmap_ext_1, Forall_forall. intros x Hx. unfold line_of.
    f_equal. rewrite Hfs, index_of_seqZ; [lia|].
    rewrite <- Hfs. by apply elem_of_first_seen.
Qed.

Lemma canonical_lines_reproduced_witness :
  ∃ Q, parse_pajek_communities (Lines ["*Vertices 4"; "1"; "2"; "1"; "2"])
       = Ok Q
       ∧ generate_pajek_communities Q
         = (["*Vertices 4"; "1"; "2"; "1"; "2"], None).
Proof.
  apply (canonical_lines_reproduced [1; 2; 1; 2]); reflexivity.
Defined.

(** ** More on sections *)

(** X9: A section that is followed by another header is discarded: the
    function returns what it returns on the lines from that header on. *)
Theorem earlier_section_discarded lines lines' l N body l2 rest :
  input_lines lines = l :: body ++ l2 :: rest →
  input_lines lines' = l2 :: rest →
  declares l N →
  Z.of_nat (length body) = N →
  Forall (λ b, is_Some (Str.int b)) body →
  is_header l2 = true →
  parse_pajek_communities lines = parse_pajek_communities lines'.
Proof.
  intros Hl Hl' HN Hlen [labels Hb]%labelled_exists Hh.
  unfold parse_pajek_communities.
  rewrite Hl, Hl', (parse_loop_section _ _ N) by done.
  replace (Z.to_nat N) with (length body) by lia.
  rewrite (read_assignments_exact _ _ _ _ _ Hb).
  by rewrite !parse_loop_cons, Hh.
Qed.

Lemma earlier_section_discarded_witness :
  parse_pajek_communities (Lines ["*Vertices 1"; "1"; "*Vertices 2"; "5"; "6"])
  = parse_pajek_communities (Lines ["*Vertices 2"; "5"; "6"]).
Proof.
  apply (earlier_section_discarded _ _ "*Vertices 1" 1 ["1"] "*Vertices 2"
           ["5"; "6"]).
  - reflexivity.
  - reflexivity.
  - split; [reflexivity|]. by exists "*Vertices", "1".
  - reflexivity.
  - repeat constructor; by eexists.
  - reflexivity.
Defined.

(** X10: A body line that [int] rejects, met among the lines the header
    announces, makes the function raise the [ValueError] of an invalid
    label, whatever follows. *)
Theorem invalid_label_raises lines l N good bad rest :
  input_lines lines = l :: good ++ bad :: rest →
  declares l N →
  Forall (λ b, is_Some (Str.int b)) good →
  Z.of_nat (length good) < N →
  Str.int bad = None →
  parse_pajek_communities lines = Raise (ValueError IntLabel)
  ∧ error_kind (ValueError IntLabel) = Some InvalidLabel.
Proof.
  intros Hl HN [labels Hb]%labelled_exists Hlt Hbad. split; [|done].
  unfold parse_pajek_communities.
  rewrite Hl, (parse_loop_section _ _ N) by done.
  replace (Z.to_nat N) with (length good + S (Z.to_nat N - S (length good)))%nat
    by lia.
  rewrite (read_assignments_labelled _ _ Hb). simpl. by rewrite Hbad.
Qed.

Lemma invalid_label_raises_witness :
  parse_pajek_communities (Lines ["*Vertices 3"; "1"; "abc"; "2"])
  = Raise (ValueError IntLabel)
  ∧ error_kind (ValueError IntLabel) = Some InvalidLabel.
Proof.
  apply (invalid_label_raises _ "*Vertices 3" 3 ["1"] "abc" ["2"]).
  - reflexivity.
  - split; [reflexivity|]. by exists "*Vertices", "3".
  - repeat constructor; by eexists.
  - simpl. lia.
  - reflexivity.
Defined.

(** ** Renaming the labels *)

Section label_names.
Variable g : Z → Z.
Hypothesis g_inj : ∀ x y, g x = g y → x = y.

Lemma elem_of_renamed x (L : list Z) : g x ∈ g <$> L ↔ x ∈ L.
Proof.
  rewrite list_elem_of_fmap. split.
  - by intros (y & ->%g_inj & Hy).
  - intros Hx. by exists x.
Qed.

Lemma first_seen_renamed (L : list Z) :
  first_seen (g <$> L) = g <$> first_seen L.
Proof.
  induction L as [|x L IH] using rev_ind; [done|].
  rewrite fmap_app. cbn [fmap list_fmap]. rewrite !first_seen_snoc, IH.
  destruct (decide (x ∈ L)) as [Hin|Hin].
  - by rewrite decide_True by by apply elem_of_renamed.
  - rewrite decide_False by by rewrite elem_of_renamed.
    by rewrite fmap_app.
Qed.

Lemma positions_from_renamed (L : list Z) : ∀ b k,
  positions_from b (g k) (g <$> L) = positions_from b k L.
Proof.
  induction L as [|x L IH]; intros b k; [done|].
  rewrite fmap_cons. cbn [positions_from]. rewrite !IH.
  destruct (decide (x = k)) as [->|Hne]; [by rewrite decide_True|].
  rewrite decide_False; [done|]. by intros ?%g_inj.
Qed.

Lemma grouped_renamed (L : list Z) : grouped (g <$> L) = grouped L.
Proof.
  unfold grouped. rewrite first_seen_renamed, <- list_fmap_compose.
  apply list_fmap_ext. intros _ k _. apply positions_from_renamed.
Qed.

(** X11: The numbers used as labels do not count, only which lines carry the
    same label: two bodies whose labels correspond under a one-to-one
    renaming give the same Partition. *)
Theorem parse_label_names_irrelevant lines lines' l l' N body body' labels :
  input_lines lines = l :: body →
  input_lines lines' = l' :: body' →
  declares l N → declares l' N →
  Z.of_nat (length body) = N →
  labelled body labels →
  labelled body' (g <$> labels) →
  parse_pajek_communities lines = parse_pajek_communities lines'.
Proof.
  intros Hl Hl' HN HN' Hlen Hb Hb'.
  assert (length body' = length body) as Hlen'.
  { apply Forall2_length in Hb, Hb'. rewrite length_fmap in Hb'. lia. }
  unfold parse_pajek_communities.
  rewrite Hl, Hl', !(parse_loop_section _ _ N) by done.
  replace (Z.to_nat N) with (length body) by lia.
  pose proof (read_assignments_exact _ _ 0 [] [] Hb) as Hr.
  pose proof (read_assignments_exact _ _ 0 [] [] Hb') as Hr'.
  rewrite app_nil_r in Hr, Hr'. rewrite Hlen' in Hr'.
  rewrite Hr, Hr', !parse_loop_nil. simpl.
  by rewrite !values_assign, grouped_renamed.
Qed.
End label_names.

Lemma parse_label_names_irrelevant_witness :
  parse_pajek_communities (Lines ["*Vertices 3"; "1"; "2"; "1"])
  = parse_pajek_communities (Lines ["*vertices 3"; "-1"; "-2"; "-1"]).
Proof.
  assert (∀ x y, - x = - y → x = y) as H by (intros; lia).
  apply (parse_label_names_irrelevant Z.opp H _ _ "*Vertices 3" "*vertices 3" 3
           ["1"; "2"; "1"] ["-1"; "-2"; "-1"] [1; 2; 1]).
  - reflexivity.
  - reflexivity.
  - split; [reflexivity|]. by exists "*Vertices", "3".
  - split; [reflexivity|]. by exists "*vertices", "3".
  - reflexivity.
  - repeat constructor.
  - repeat constructor.
Defined.

(** ** Files *)

Lemma digit_plain c : is_digit c = true → is_plain c = true.
Proof. by each_char c. Qed.

Lemma plain_ascii c : is_plain c = true → is_ascii c = true.
Proof. by intros [? _]%andb_prop. Qed.

Lemma plain_not_newline c : is_plain c = true → Str.is_newline c = false.
Proof. by intros [_ ?%negb_true_iff]%andb_prop. Qed.

Lemma of_int_plain z : 0 <= z → all_chars is_plain (Str.of_int z) = true.
Proof.
  intros Hz. eapply all_chars_impl, all_digits_of_int; [|done].
  apply digit_plain.
Qed.

Lemma generate_loop_plain n : ∀ cl,
  Forall (λ line, all_chars is_plain line = true) (generate_loop n cl).1.
Proof.
  induction n as [|n IH]; intros cl; simpl; [constructor|].
  destruct (find_owner cl) as [[v j]|e]; [|constructor].
  destruct (remove_vertex j v cl) as [cl'|e].
  - specialize (IH cl'). destruct (generate_loop n cl') as [lines e].
    constructor; [apply of_int_plain; lia|done].
  - repeat constructor. apply of_int_plain. lia.
Qed.

Lemma generate_plain P :
  Forall (λ line, all_chars is_plain line = true)
    (generate_pajek_communities P).1.
Proof.
  rewrite generate_unfold. constructor; [|apply generate_loop_plain].
  rewrite all_chars_app, of_int_plain by lia. done.
Qed.

Lemma file_lines_from_line body : all_chars is_plain body = true →
  ∀ cur rest,
    file_lines_from cur (body +:+ String "010" rest)
    = (cur +:+ body +:+ String "010" "") :: file_lines_from "" rest.
Proof.
  induction body as [|c body IH]; simpl_app.
  - done.
  - intros [Hc Hbody]%andb_prop cur rest.
    rewrite (plain_not_newline c Hc), IH by done.
    by rewrite app_snoc_assoc.
Qed.

Lemma write_chunks_lines (encode : string → option string) lines :
  (∀ s, all_chars is_ascii s = true → encode s = Some s) →
  Forall (λ line, all_chars is_plain line = true) lines →
  ∃ content,
    write_chunks encode ((λ line, line +:+ CRLF) <$> lines) = (content, true)
    ∧ file_lines content = (λ line, line +:+ CRLF) <$> lines.
Proof.
  intros Henc. induction 1 as [|line lines Hline _ (content & Hw & Hr)].
  - by exists "".
  - assert (all_chars is_ascii (line +:+ CRLF) = true) as Hascii.
    { rewrite all_chars_app, (all_chars_impl _ _ _ plain_ascii Hline). done. }
    exists ((line +:+ CRLF) +:+ content). split.
    + rewrite fmap_cons. cbn [write_chunks]. by rewrite (Henc _ Hascii), Hw.
    + unfold file_lines in *. unfold CRLF in *.
      rewrite <- (app_snoc_assoc line (String "010" "") "013").
      rewrite (app_assoc_string _ (String "010" "") content).
      rewrite app_String, app_empty_l.
      rewrite file_lines_from_line, app_empty_l.
      * rewrite fmap_cons, Hr.
        by rewrite (app_snoc_assoc line (String "010" "") "013").
      * rewrite all_chars_app, Hline. done.
Qed.

Lemma decode_lines_ascii (decode : string → option string) lines :
  (∀ s, all_chars is_ascii s = true → decode s = Some s) →
  Forall (λ line, all_chars is_ascii line = true) lines →
  decode_lines decode lines = Some lines.
Proof.
  intros Hdec. induction 1 as [|line lines Hline _ IH]; [done|].
  cbn [decode_lines]. by rewrite (Hdec _ Hline), IH.
Qed.

(** X12: With a codec that leaves the characters below U+0080 as they are
    (UTF-8, the default, is one), [write_pajek_communities] raises on no
    lists of integers: the file it leaves holds the generated lines, each
    ended by CR LF, one more than there are vertices. *)
Theorem write_file_total (encode : string → option string) P :
  (∀ s, all_chars is_ascii s = true → encode s = Some s) →
  ∃ content,
    write_pajek_file encode P = (content, Written)
    ∧ file_lines content
      = (λ line, line +:+ CRLF) <$> (generate_pajek_communities P).1
    ∧ length (file_lines content) = S (nnodes P).
Proof.
  intros Henc.
  destruct (generate_loop_total (nnodes P) P (length_join_nnodes P))
    as [(body & Hg & Hb) _].
  pose proof (generate_unfold P) as HP. rewrite Hg in HP. cbn [fst snd] in HP.
  pose proof (generate_plain P) as Hplain. rewrite HP in Hplain |- *.
  cbn [fst] in Hplain |- *.
  destruct (write_chunks_lines encode _ Henc Hplain) as (content & Hw & Hr).
  exists content. unfold write_pajek_file, write_pajek_communities.
  rewrite HP. fold CRLF. rewrite Hw. split_and!; [done..|].
  rewrite Hr, length_fmap. simpl. by rewrite Hb.
Qed.

Lemma write_file_total_witness :
  ∃ content,
    write_pajek_file Some [[5]; []; [5; -2]] = (content, Written)
    ∧ file_lines content
      = (λ line, line +:+ CRLF)
          <$> (generate_pajek_communities [[5]; []; [5; -2]]).1
    ∧ length (file_lines content) = 4%nat.
Proof. apply (write_file_total Some [[5]; []; [5; -2]]). reflexivity. Defined.

(** X13: A Partition in the shape the parser returns survives the file: with
    a codec that leaves the characters below U+0080 as they are,
    [write_pajek_communities] writes it without an exception and
    [read_pajek_communities] returns it from the bytes written. *)
Theorem file_roundtrip (encode decode : string → option string) Q :
  (∀ s, all_chars is_ascii s = true → encode s = Some s) →
  (∀ s, all_chars is_ascii s = true → decode s = Some s) →
  canonical Q →
  ∃ content,
    write_pajek_file encode Q = (content, Written)
    ∧ read_pajek_file decode content = Some (Ok Q).
Proof.
  intros Henc Hdec HQ.
  destruct (parse_generated_canonical Q HQ) as (lines & Hg & Hp).
  pose proof (generate_plain Q) as Hplain. rewrite Hg in Hplain.
  destruct (write_chunks_lines encode lines Henc Hplain)
    as (content & Hw & Hr).
  exists content. unfold write_pajek_file, write_pajek_communities.
  rewrite Hg. fold CRLF. rewrite Hw. split; [done|].
  unfold read_pajek_file. rewrite Hr, (decode_lines_ascii decode _ Hdec).
  - f_equal. rewrite <- Hp.
    unfold read_pajek_communities, parse_pajek_communities.
    apply parse_loop_blank_suffix, (input_lines_CR lines).
  - apply Forall_fmap. eapply Forall_impl; [exact Hplain|].
    intros line Hline. simpl.
    rewrite all_chars_app, (all_chars_impl _ _ _ plain_ascii Hline). done.
Qed.

Lemma file_roundtrip_witness :
  ∃ content,
    write_pajek_file Some [[0; 2]; [1; 3]] = (content, Written)
    ∧ read_pajek_file Some content = Some (Ok [[0; 2]; [1; 3]]).
Proof.
  apply (file_roundtrip Some Some [[0; 2]; [1; 3]]).
  - reflexivity.
  - reflexivity.
  - split_and!.
    + unfold I1. apply (bool_decide_unpack _). vm_compute. reflexivity.
    + by repeat constructor.
    + by repeat constructor.
    + by repeat constructor.
Defined.

(** ** A string as argument *)

Lemma split_on_no_newline line :
  all_chars (λ c, negb (Str.is_newline c)) line = true →
  Str.split_on "010" line = [line].
Proof.
  induction line as [|c line IH]; simpl; [done|].
  intros [Hc Hline]%andb_prop. apply negb_true_iff in Hc.
  unfold Str.is_newline in Hc. by rewrite Hc, IH.
Qed.

Lemma split_on_line line rest :
  all_chars (λ c, negb (Str.is_newline c)) line = true →
  Str.split_on "010" (line +:+ String "010" rest)
  = line :: Str.split_on "010" rest.
Proof.
  induction line as [|c line IH]; simpl_app; [done|].
  intros [Hc Hline]%andb_prop. apply negb_true_iff in Hc.
  unfold Str.is_newline in Hc. by rewrite Hc, IH.
Qed.

Lemma split_on_join lines :
  lines ≠ [] →
  Forall (λ line, all_chars (λ c, negb (Str.is_newline c)) line = true) lines →
  Str.split_on "010" (join_lines lines) = lines.
Proof.
  intros Hne Hlines. induction Hlines as [|line lines Hline Hlines IH]; [done|].
  destruct lines as [|line' lines]; [by apply split_on_no_newline|].
  cbn [join_lines]. rewrite split_on_line by done. f_equal. by apply IH.
Qed.

(** X14: Lines given as one string, joined by line feeds, are parsed as the
    list of the lines is. *)
Theorem parse_text_as_lines lines :
  Forall (λ line, all_chars (λ c, negb (Str.is_newline c)) line = true) lines →
  parse_pajek_communities (Text (join_lines lines))
  = parse_pajek_communities (Lines lines).
Proof.
  intros Hlines. destruct lines as [|line lines]; [done|].
  unfold parse_pajek_communities, input_lines.
  by rewrite split_on_join.
Qed.

Lemma parse_text_as_lines_witness :
  parse_pajek_communities
    (Text ("*Vertices 2" +:+ String "010" ("1" +:+ String "010" "1")))
  = parse_pajek_communities (Lines ["*Vertices 2"; "1"; "1"]).
Proof.
  apply (parse_text_as_lines ["*Vertices 2"; "1"; "1"]).
  repeat constructor.
Defined.

(** ** Sections without vertices, labels without Community *)

(** X15: A header that announces no vertex, or a negative number of them,
    followed by nothing or by a line that is not a header, gives the
    empty Partition. *)
Theorem empty_section lines l N trailing :
  input_lines lines = l :: trailing →
  declares l N →
  N <= 0 →
  match trailing with [] => True | t :: _ => is_header t = false end →
  parse_pajek_communities lines = Ok [].
Proof.
  intros Hl HN Hle Ht. unfold parse_pajek_communities.
  rewrite Hl, (parse_loop_section _ _ N) by done.
  replace (Z.to_nat N) with 0%nat by lia. simpl.
  destruct trailing as [|t trailing]; [by rewrite parse_loop_nil|].
  by rewrite parse_loop_no_header.
Qed.

Lemma empty_section_witness :
  parse_pajek_communities (Lines ["*Vertices 0"; "*Edges"]) = Ok [].
Proof.
  apply (empty_section _ "*Vertices 0" 0 ["*Edges"]).
  - reflexivity.
  - split; [reflexivity|]. by exists "*Vertices", "0".
  - lia.
  - reflexivity.
Defined.

Lemma find_owner_lt (cl : list (list Z)) v j :
  find_owner cl = Ok (v, j) → (j < length cl)%nat.
Proof.
  unfold find_owner. destruct (py_min (minima cl)) as [v'|]; [|done].
  destruct (list_find _ cl) as [[j' c]|] eqn:Hfind; [|done].
  intros [= _ <-]. apply list_find_Some in Hfind as (Hj & _).
  by eapply lookup_lt_Some.
Qed.

Lemma remove_vertex_length j v (cl cl' : list (list Z)) :
  remove_vertex j v cl = Ok cl' → length cl' = length cl.
Proof.
  unfold remove_vertex. destruct (cl !! j) as [c|]; [|done].
  destruct (list_remove v c) as [r|]; [|done].
  intros [= <-]. apply length_insert.
Qed.

Lemma generate_loop_in_range n : ∀ cl : list (list Z),
  Forall (λ line, ∃ j, (j < length cl)%nat ∧ line = line_of j)
    (generate_loop n cl).1.
Proof.
  induction n as [|n IH]; intros cl; simpl; [constructor|].
  destruct (find_owner cl) as [[v j]|e] eqn:Hf; [|constructor].
  apply find_owner_lt in Hf.
  destruct (remove_vertex j v cl) as [cl'|e] eqn:Hr.
  - specialize (IH cl'). apply remove_vertex_length in Hr. rewrite Hr in IH.
    destruct (generate_loop n cl') as [lines e].
    constructor; [by exists j|done].
  - repeat constructor. by exists j.
Qed.

(** X16: Every line the generator yields after the header is the 1-based
    position of one of the Communities it was given: no label is below 1
    or above their number. *)
Theorem generate_labels_in_range (P : Partition) :
  ∃ header body,
    (generate_pajek_communities P).1 = header :: body
    ∧ Forall (λ line, ∃ j : nat,
                (j < length P)%nat ∧ line = Str.of_int (Z.of_nat j + 1)) body.
Proof.
  rewrite generate_unfold. do 2 eexists. split; [done|].
  apply generate_loop_in_range.
Qed.
